(** * A binary search tree over [std::unique_ptr] nodes: tree/binarytree.hpp

    Shallow embedding of [BinaryTree<T>] and of its private helpers, followed
    by the properties of the operations.  The element type [T] is taken to be
    an integer type (the printing code calls [std::to_string] on the values);
    values are never combined arithmetically, so they are plain [Z].

    Machine integers that the code does arithmetic on are modelled with their
    width: [size_t] is 64 bits wide and unsigned, [int] is 32 bits wide and
    signed (LP64), both with wrap-around written out. *)

From Stdlib Require Import ZArith List Bool Lia String Ascii Sorted Permutation.
From Stdlib Require Import DecimalString.
Import ListNotations.

Local Open Scope Z_scope.

(** ** Outcomes of a call *)

Inductive exn : Type :=
| EmptyTreeException
| invalid_argument (what : string).

(** A call returns, throws, runs into undefined behaviour (null dereference,
    read through an uninitialised pointer, [operator[]] out of range), or is
    still running when the fuel given to its loops is used up. *)
Inductive outcome (A : Type) : Type :=
| Ret (a : A)
| Throw (e : exn)
| Fault
| OutOfFuel.

Arguments Ret {A} a.
Arguments Throw {A} e.
Arguments Fault {A}.
Arguments OutOfFuel {A}.

Definition bind {A B : Type} (m : outcome A) (k : A -> outcome B) : outcome B :=
  match m with
  | Ret a => k a
  | Throw e => Throw e
  | Fault => Fault
  | OutOfFuel => OutOfFuel
  end.

Notation "x <- m ;; k" := (bind m (fun x => k))
  (at level 61, m at next level, right associativity).

(** ** Machine integers *)

Definition size_t_wrap (z : Z) : Z := z mod 2 ^ 64.

Definition int_wrap (z : Z) : Z := (z + 2 ^ 31) mod 2 ^ 32 - 2 ^ 31.

(** ** Nodes and trees *)

(** The enumeration has the enumerators 0, 1 and 2, so its values are those
    of a two-bit field: besides the three enumerators there is the value 3,
    [static_cast<VisitingOrder>(3)], which [setOrder] accepts like the others. *)
Inductive VisitingOrder : Type := InOrder | PreOrder | PostOrder | UnnamedOrder.

Definition order_value (o : VisitingOrder) : Z :=
  match o with
  | InOrder => 0
  | PreOrder => 1
  | PostOrder => 2
  | UnnamedOrder => 3
  end.

(** [std::unique_ptr<TreeNode<T>>]: either [nullptr] or the owner of a node
    with its [value] and its two owning slots [left] and [right]. *)
Inductive NodePtr : Type :=
| nullptr
| node (value : Z) (left right : NodePtr).

Record BinaryTree : Type := mkTree {
  root : NodePtr;
  order : VisitingOrder
}.

(** [BinaryTree()] and [BinaryTree(T val, VisitingOrder order)]. *)
Definition empty_tree : BinaryTree := mkTree nullptr InOrder.

Definition singleton_tree (val : Z) (o : VisitingOrder) : BinaryTree :=
  mkTree (node val nullptr nullptr) o.

Definition is_null (p : NodePtr) : bool :=
  match p with nullptr => true | node _ _ _ => false end.

(** A raw [Node*] into a tree is the sequence of child slots followed from the
    root. *)
Inductive slot : Type := to_left | to_right.

Definition child (s : slot) (p : NodePtr) : NodePtr :=
  match p with
  | nullptr => nullptr
  | node _ l r => match s with to_left => l | to_right => r end
  end.

Fixpoint deref (p : NodePtr) (path : list slot) : NodePtr :=
  match path with
  | [] => p
  | s :: rest => deref (child s p) rest
  end.

(** Assignment [n->left = q] or [n->right = q] to the node reached by [path];
    the previous owner of the slot is destroyed. *)
Fixpoint assign_slot (p : NodePtr) (path : list slot) (s : slot) (q : NodePtr) : NodePtr :=
  match p with
  | nullptr => nullptr
  | node v l r =>
      match path with
      | [] => match s with to_left => node v q r | to_right => node v l q end
      | to_left :: rest => node v (assign_slot l rest s q) r
      | to_right :: rest => node v l (assign_slot r rest s q)
      end
  end.

(** ** makeInOrderVector *)

Fixpoint makeInOrderVector (vec : list Z) (n : NodePtr) : list Z :=
  match n with
  | nullptr => vec
  | node v l r => makeInOrderVector (makeInOrderVector vec l ++ [v]) r
  end.

(** The in-order sequence of a tree: the vector that [balance] collects. *)
Definition inorder (t : BinaryTree) : list Z := makeInOrderVector [] (root t).

(** ** insert *)

(** The [while(tmp != nullptr)] loop.  [prev] is uninitialised ([None]) on
    entry.  When [val] equals the value at [tmp] neither branch is taken and
    the next iteration starts from the same state. *)
Fixpoint insert_loop (fuel : nat) (rt : NodePtr) (val : Z)
    (prev : option (list slot)) (tmp : list slot) : outcome (option (list slot)) :=
  match fuel with
  | O => OutOfFuel
  | S fuel' =>
      match deref rt tmp with
      | nullptr => Ret prev
      | node v _ _ =>
          if val >? v then insert_loop fuel' rt val (Some tmp) (tmp ++ [to_right])
          else if val <? v then insert_loop fuel' rt val (Some tmp) (tmp ++ [to_left])
          else insert_loop fuel' rt val prev tmp
      end
  end.

Definition insert (fuel : nat) (val : Z) (t : BinaryTree) : outcome BinaryTree :=
  match root t with
  | nullptr => Ret (mkTree (node val nullptr nullptr) (order t))
  | node _ _ _ =>
      prev <- insert_loop fuel (root t) val None [] ;;
      match prev with
      | None => Fault
      | Some p =>
          match deref (root t) p with
          | nullptr => Fault
          | node pv _ _ =>
              if pv >? val
              then Ret (mkTree (assign_slot (root t) p to_left (node val nullptr nullptr)) (order t))
              else Ret (mkTree (assign_slot (root t) p to_right (node val nullptr nullptr)) (order t))
          end
      end
  end.

(** [operator+=] is [insert]. *)
Definition plus_assign (fuel : nat) (n : Z) (t : BinaryTree) : outcome BinaryTree :=
  insert fuel n t.

Fixpoint insert_all (fuel : nat) (vals : list Z) (t : BinaryTree) : outcome BinaryTree :=
  match vals with
  | [] => Ret t
  | v :: rest => t' <- insert fuel v t ;; insert_all fuel rest t'
  end.


(** ** contains *)

(** The [while(curr != nullptr)] loop; [curr] moves to a child on every
    iteration that does not return. *)
Fixpoint contains_loop (curr : NodePtr) (val : Z) : bool :=
  match curr with
  | nullptr => false
  | node v l r =>
      if v =? val then true
      else contains_loop (if v >? val then l else r) val
  end.

Definition contains (t : BinaryTree) (val : Z) : bool :=
  match root t with
  | nullptr => false
  | node _ _ _ => contains_loop (root t) val
  end.

(** ** deleteElement *)

(** [Node* leftmost = p.get(); while(leftmost->left != nullptr) leftmost =
    leftmost->left.get(); ... leftmost->value]: the loop of [recursiveDelete]
    and, from the root, of [getMin]. *)
Fixpoint leftmost (p : NodePtr) : outcome Z :=
  match p with
  | nullptr => Fault
  | node v l _ =>
      match l with
      | nullptr => Ret v
      | node _ _ _ => leftmost l
      end
  end.

(** The mirror loop of [getMax]. *)
Fixpoint rightmost (p : NodePtr) : outcome Z :=
  match p with
  | nullptr => Fault
  | node v _ r =>
      match r with
      | nullptr => Ret v
      | node _ _ _ => rightmost r
      end
  end.

(** [removeNode(node)]: the slot takes over one child of the node it owned;
    the node and its other child are destroyed with it.  The result is the new
    content of the slot. *)
Definition removeNode (n : NodePtr) : outcome NodePtr :=
  match n with
  | nullptr => Fault
  | node _ l r =>
      if is_null l then Ret r else Ret l
  end.

(** [recursiveDelete(node, val)]: the returned flag and the new content of the
    slot [node]. *)
Fixpoint recursiveDelete (n : NodePtr) (val : Z) : outcome (bool * NodePtr) :=
  match n with
  | nullptr => Ret (false, nullptr)
  | node v l r =>
      if v =? val then
        if negb (is_null l) && negb (is_null r) then
          m <- leftmost r ;;
          r' <- removeNode r ;;
          Ret (true, node m l r')
        else
          n' <- removeNode (node v l r) ;;
          Ret (true, n')
      else if val <? v then
        res <- recursiveDelete l val ;;
        Ret (fst res, node v (snd res) r)
      else
        res <- recursiveDelete r val ;;
        Ret (fst res, node v l (snd res))
  end.

Definition deleteElement (t : BinaryTree) (val : Z) : outcome (bool * BinaryTree) :=
  match root t with
  | nullptr => Ret (false, t)
  | node _ _ _ =>
      res <- recursiveDelete (root t) val ;;
      Ret (fst res, mkTree (snd res) (order t))
  end.

(** ** getMin, getMax *)

Definition getMax (t : BinaryTree) : outcome Z :=
  match root t with
  | nullptr => Throw EmptyTreeException
  | node _ _ _ => rightmost (root t)
  end.

Definition getMin (t : BinaryTree) : outcome Z :=
  match root t with
  | nullptr => Throw EmptyTreeException
  | node _ _ _ => leftmost (root t)
  end.

(** ** getHeight *)

Fixpoint recursiveGetHeight (n : NodePtr) : Z :=
  match n with
  | nullptr => 0
  | node _ l r => size_t_wrap (Z.max (recursiveGetHeight l) (recursiveGetHeight r) + 1)
  end.

Definition getHeight (t : BinaryTree) : Z := recursiveGetHeight (root t).

(** ** balance *)

(** [v[i]] with an [int] index: the index is converted to [size_type]; an
    index past the end is undefined behaviour. *)
Definition vector_at (v : list Z) (i : Z) : outcome Z :=
  let idx := size_t_wrap i in
  if idx <? Z.of_nat (List.length v)
  then match nth_error v (Z.to_nat idx) with
       | Some x => Ret x
       | None => Fault
       end
  else Fault.

Fixpoint makeNode (fuel : nat) (low high : Z) (v : list Z) : outcome NodePtr :=
  match fuel with
  | O => OutOfFuel
  | S fuel' =>
      if low >? high then Ret nullptr
      else
        let mid := Z.quot (int_wrap (low + high)) 2 in
        x <- vector_at v mid ;;
        l <- makeNode fuel' low (int_wrap (mid - 1)) v ;;
        r <- makeNode fuel' (int_wrap (mid + 1)) high v ;;
        Ret (node x l r)
  end.

(** [v.size()-1] is computed in [size_t] and converted to the [int] parameter
    [high] of [makeNode]. *)
Definition balance_high (v : list Z) : Z :=
  int_wrap (size_t_wrap (Z.of_nat (List.length v) - 1)).

Definition balance (fuel : nat) (t : BinaryTree) : outcome BinaryTree :=
  let v := makeInOrderVector [] (root t) in
  r <- makeNode fuel 0 (balance_high v) v ;;
  Ret (mkTree r (order t)).

(** ** print *)

Local Open Scope string_scope.

(** [std::to_string] on an integer value: decimal digits, [-] for negatives. *)
Definition to_string (z : Z) : string := NilZero.string_of_int (Z.to_int z).

Fixpoint recursiveInOrder (n : NodePtr) : string :=
  match n with
  | nullptr => ""
  | node v l r => " " ++ to_string v ++ recursiveInOrder l ++ recursiveInOrder r
  end.

Fixpoint recursivePreOrder (n : NodePtr) : string :=
  match n with
  | nullptr => ""
  | node v l r => recursivePreOrder l ++ (" " ++ to_string v) ++ recursivePreOrder r
  end.

Fixpoint recursivePostOrder (n : NodePtr) : string :=
  match n with
  | nullptr => ""
  | node v l r => recursivePostOrder l ++ recursivePostOrder r ++ (" " ++ to_string v)
  end.

Definition print (t : BinaryTree) : outcome string :=
  match root t with
  | nullptr => Ret ""
  | node _ _ _ =>
      match order t with
      | InOrder => Ret (recursiveInOrder (root t))
      | PreOrder => Ret (recursivePreOrder (root t))
      | PostOrder => Ret (recursivePostOrder (root t))
      | UnnamedOrder =>
          Throw (invalid_argument ("Order value invalid " ++ to_string (order_value (order t))))
      end
  end.

Local Close Scope string_scope.

(** ** Copy construction and copy assignment *)

(** The loop of [BinaryTree(const BinaryTree& other)].  [curr] and the
    entries of [remaining] point into [other], which the loop only reads;
    the back of the vector [remaining] is the head of the list. *)
Fixpoint copy_loop (fuel : nat) (self : BinaryTree) (curr : NodePtr)
    (remaining : list NodePtr) : outcome BinaryTree :=
  match fuel with
  | O => OutOfFuel
  | S fuel' =>
      match curr with
      | nullptr => Ret self
      | node v l r =>
          self' <- insert fuel' v self ;;
          let remaining' := if is_null r then remaining else r :: remaining in
          if negb (is_null l) then copy_loop fuel' self' l remaining'
          else
            match remaining' with
            | [] => Ret self'
            | back :: rest => copy_loop fuel' self' back rest
            end
      end
  end.

Definition copy_construct (fuel : nat) (other : BinaryTree) : outcome BinaryTree :=
  self <- copy_loop fuel (mkTree nullptr InOrder) (root other) [] ;;
  Ret (mkTree (root self) (order other)).

(** Objects live at addresses; [operator=] compares the addresses of its two
    operands.  It returns the objects as they are after the call, together
    with the object its result refers to: [*this] on self-assignment,
    otherwise the temporary [BinaryTree(other)]. *)
Definition objects : Type := list BinaryTree.

Definition copy_assign (fuel : nat) (mem : objects) (this other : nat)
  : outcome (objects * BinaryTree) :=
  match nth_error mem this, nth_error mem other with
  | Some self, Some o =>
      if Nat.eqb this other then Ret (mem, self)
      else
        tmp <- copy_construct fuel o ;;
        Ret (mem, tmp)
  | _, _ => Fault
  end.


(** ** setOrder, the root accessors, isBalanced, operator<< *)

Definition setOrder (t : BinaryTree) (newOrder : VisitingOrder) : BinaryTree :=
  mkTree (root t) newOrder.

(** [getRootValue], [getRootLeft] and [getRootRight] dereference the root
    without a test.  The two pointer accessors return a raw pointer to the
    child, which is the child slot read only. *)
Definition getRootValue (t : BinaryTree) : outcome Z :=
  match root t with
  | nullptr => Fault
  | node v _ _ => Ret v
  end.

Definition getRootLeft (t : BinaryTree) : outcome NodePtr :=
  match root t with
  | nullptr => Fault
  | node _ l _ => Ret l
  end.

Definition getRootRight (t : BinaryTree) : outcome NodePtr :=
  match root t with
  | nullptr => Fault
  | node _ _ r => Ret r
  end.

Definition isBalanced (t : BinaryTree) : bool :=
  match root t with
  | nullptr => true
  | node _ lt rt =>
      let l := recursiveGetHeight lt in
      let r := recursiveGetHeight rt in
      (if l >? r then size_t_wrap (l - r) else size_t_wrap (r - l)) <=? 1
  end.

(** [os << "[" << bt.print() << " ]"]: the characters written to the stream. *)
Definition stream_insert (t : BinaryTree) : outcome string :=
  s <- print t ;;
  Ret (String.append "[" (String.append s " ]")).

(** ** Definitions used to state the properties *)

(** The in-order sequence of the subtree owned by a slot. *)
Definition seq_of (n : NodePtr) : list Z := makeInOrderVector [] n.

Arguments seq_of : simpl never.

(** Number of nodes on the longest path from a slot down to a null slot. *)
Fixpoint depth (n : NodePtr) : nat :=
  match n with
  | nullptr => O
  | node _ l r => S (Nat.max (depth l) (depth r))
  end.

(** The search-tree invariant with strict bounds on both sides. *)
Fixpoint bst (n : NodePtr) : Prop :=
  match n with
  | nullptr => True
  | node v l r =>
      bst l /\ bst r /\
      Forall (fun x => x < v) (seq_of l) /\
      Forall (fun x => v < x) (seq_of r)
  end.

(** Insertion as a recursive function on the owned subtree; on an equal value
    the subtree is returned as it is. *)
Fixpoint ins (val : Z) (n : NodePtr) : NodePtr :=
  match n with
  | nullptr => node val nullptr nullptr
  | node v l r =>
      if val >? v then node v l (ins val r)
      else if val <? v then node v (ins val l) r
      else n
  end.

(** The subtree at [path] replaced by [q]. *)
Fixpoint graft (p : NodePtr) (path : list slot) (q : NodePtr) {struct path} : NodePtr :=
  match path with
  | [] => q
  | s :: rest =>
      match p with
      | nullptr => nullptr
      | node v l r =>
          match s with
          | to_left => node v (graft l rest q) r
          | to_right => node v l (graft r rest q)
          end
      end
  end.

(** Where the loop of [insert] leaves [prev] when it is entered with [tmp]
    pointing at [sub]; [None] when the walk reaches a node holding [val]. *)
Fixpoint landing (val : Z) (sub : NodePtr) (prev : option (list slot))
    (tmp : list slot) : option (option (list slot)) :=
  match sub with
  | nullptr => Some prev
  | node v l r =>
      if val >? v then landing val r (Some tmp) (tmp ++ [to_right])
      else if val <? v then landing val l (Some tmp) (tmp ++ [to_left])
      else None
  end.

(** The three traversal orders in their usual sense, as sequences of values,
    and the rendering of a sequence with a space before each token. *)
Fixpoint preorder_seq (n : NodePtr) : list Z :=
  match n with
  | nullptr => []
  | node v l r => v :: preorder_seq l ++ preorder_seq r
  end.

Fixpoint inorder_seq (n : NodePtr) : list Z :=
  match n with
  | nullptr => []
  | node v l r => inorder_seq l ++ v :: inorder_seq r
  end.

Fixpoint postorder_seq (n : NodePtr) : list Z :=
  match n with
  | nullptr => []
  | node v l r => postorder_seq l ++ postorder_seq r ++ [v]
  end.

Definition canonical (o : VisitingOrder) (n : NodePtr) : list Z :=
  match o with
  | InOrder => inorder_seq n
  | PreOrder => preorder_seq n
  | PostOrder => postorder_seq n
  | UnnamedOrder => []
  end.

Fixpoint render (vals : list Z) : string :=
  match vals with
  | [] => EmptyString
  | x :: rest => String.append " " (String.append (to_string x) (render rest))
  end.

(** The values of a list inserted one after the other, recursively. *)
Definition ins_all (xs : list Z) (n : NodePtr) : NodePtr :=
  fold_left (fun acc x => ins x acc) xs n.

(** The values still to be visited by the copy loop: those below [curr], then
    those below the entries of [remaining], back first. *)
Definition pending (curr : NodePtr) (remaining : list NodePtr) : list Z :=
  preorder_seq curr ++ flat_map preorder_seq remaining.

(** The trees that a sequence of returning [insert] calls builds from the
    empty tree. *)
Inductive built_by_inserts : BinaryTree -> Prop :=
| built_empty : built_by_inserts empty_tree
| built_insert (t t' : BinaryTree) (fuel : nat) (val : Z) :
    built_by_inserts t -> insert fuel val t = Ret t' -> built_by_inserts t'.

(** Every node holds the lower middle of the values below it: its left
    subtree has as many nodes as its right subtree, or one less. *)
Fixpoint lower_middle (n : NodePtr) : Prop :=
  match n with
  | nullptr => True
  | node _ l r =>
      (List.length (seq_of l) <= List.length (seq_of r) <= S (List.length (seq_of l)))%nat /\
      lower_middle l /\ lower_middle r
  end.

(** The tree that [insert] builds from [count] ascending values starting at
    [from]: every node hangs in the right slot of its predecessor. *)
Fixpoint ascending (count : nat) (from : Z) : NodePtr :=
  match count with
  | O => nullptr
  | S count' => node from nullptr (ascending count' (from + 1))
  end.

(** The tree holding the values [0 .. 2^30], one more than [2^30] elements. *)
Definition oversized : BinaryTree :=
  mkTree (ascending (Z.to_nat (2 ^ 30 + 1)) 0) InOrder.

(** The tree of the scenario: 5, 3, 8, 1, 4, 7, 9 inserted in that order. *)
Definition scenario_root : NodePtr :=
  node 5 (node 3 (node 1 nullptr nullptr) (node 4 nullptr nullptr))
         (node 8 (node 7 nullptr nullptr) (node 9 nullptr nullptr)).

Definition scenario : BinaryTree := mkTree scenario_root InOrder.

(** The tree that [deleteElement(5)] leaves behind on the scenario. *)
Definition scenario_after_delete : BinaryTree :=
  mkTree (node 7 (node 3 (node 1 nullptr nullptr) (node 4 nullptr nullptr))
                 (node 7 nullptr nullptr)) InOrder.

(** The node at which [recursiveDelete] finds [val]: the first node on the
    search path that holds it, a null pointer when there is none. *)
Fixpoint delete_target (n : NodePtr) (val : Z) : NodePtr :=
  match n with
  | nullptr => nullptr
  | node v l r =>
      if v =? val then n
      else if val <? v then delete_target l val
      else delete_target r val
  end.

(** A node with at most one child, or whose right child has no left child. *)
Definition spliceable (n : NodePtr) : bool :=
  match n with
  | nullptr => false
  | node _ l r => is_null l || is_null r || is_null (child to_left r)
  end.

(** [count] consecutive values starting at [from]. *)
Fixpoint ascending_values (count : nat) (from : Z) : list Z :=
  match count with
  | O => []
  | S count' => from :: ascending_values count' (from + 1)
  end.

(** The trees that the public operations produce, starting from the two
    constructors; [balance] within the range of its [int] bounds. *)
Inductive reachable : BinaryTree -> Prop :=
| reach_empty : reachable empty_tree
| reach_singleton (val : Z) (o : VisitingOrder) : reachable (singleton_tree val o)
| reach_insert (t t' : BinaryTree) (fuel : nat) (val : Z) :
    reachable t -> insert fuel val t = Ret t' -> reachable t'
| reach_delete (t t' : BinaryTree) (val : Z) (found : bool) :
    reachable t -> deleteElement t val = Ret (found, t') -> reachable t'
| reach_setOrder (t : BinaryTree) (o : VisitingOrder) :
    reachable t -> reachable (setOrder t o)
| reach_balance (t t' : BinaryTree) (fuel : nat) :
    reachable t -> Z.of_nat (List.length (inorder t)) <= 2 ^ 30 ->
    balance fuel t = Ret t' -> reachable t'
| reach_copy (t t' : BinaryTree) (fuel : nat) :
    reachable t -> copy_construct fuel t = Ret t' -> reachable t'.

(** ** The in-order vector *)

Lemma makeInOrderVector_app (n : NodePtr) :
  forall vec, makeInOrderVector vec n = vec ++ seq_of n.
Proof.
  unfold seq_of.
  induction n as [|v l IHl r IHr]; intro vec; simpl.
  - now rewrite app_nil_r.
  - rewrite IHr, IHl. rewrite (IHr (_ ++ [v])), (IHl []). simpl.
    now rewrite <- !app_assoc.
Qed.

Lemma seq_of_node (v : Z) (l r : NodePtr) :
  seq_of (node v l r) = seq_of l ++ v :: seq_of r.
Proof.
  unfold seq_of at 1. simpl.
  rewrite makeInOrderVector_app, (makeInOrderVector_app l). simpl.
  now rewrite <- app_assoc.
Qed.

Lemma seq_of_null : seq_of nullptr = [].
Proof. reflexivity. Qed.

Lemma depth_le_size (n : NodePtr) : (depth n <= List.length (seq_of n))%nat.
Proof.
  induction n as [|v l IHl r IHr]; simpl; [lia|].
  rewrite seq_of_node, length_app. simpl. lia.
Qed.

(** ** Raw pointers *)

Lemma deref_null (path : list slot) : deref nullptr path = nullptr.
Proof. induction path as [|s rest IH]; simpl; auto. Qed.

Lemma deref_snoc (path : list slot) :
  forall p s, deref p (path ++ [s]) = child s (deref p path).
Proof.
  induction path as [|a rest IH]; intros p s; simpl; auto.
Qed.

Lemma assign_slot_graft (path : list slot) :
  forall p s q v l r,
    deref p path = node v l r ->
    assign_slot p path s q =
    graft p path (match s with to_left => node v q r | to_right => node v l q end).
Proof.
  induction path as [|a rest IH]; intros p s q v l r H; simpl in *.
  - subst p. reflexivity.
  - destruct p as [|pv pl pr]; simpl in H.
    + rewrite deref_null in H. discriminate.
    + destruct a; simpl; erewrite IH by eassumption; reflexivity.
Qed.

Lemma graft_snoc (path : list slot) :
  forall p s q v l r,
    deref p path = node v l r ->
    graft p (path ++ [s]) q =
    graft p path (match s with to_left => node v q r | to_right => node v l q end).
Proof.
  induction path as [|a rest IH]; intros p s q v l r H; simpl in *.
  - subst p. destruct s; reflexivity.
  - destruct p as [|pv pl pr]; simpl in H.
    + rewrite deref_null in H. discriminate.
    + destruct a; simpl; erewrite IH by eassumption; reflexivity.
Qed.

(** ** The loop of insert *)

Lemma insert_loop_stall (rt : NodePtr) (val : Z) (prev : option (list slot))
    (tmp : list slot) (l r : NodePtr) :
  deref rt tmp = node val l r ->
  forall fuel, insert_loop fuel rt val prev tmp = OutOfFuel.
Proof.
  intros H fuel. induction fuel as [|fuel IH]; simpl; auto.
  rewrite H. rewrite Z.gtb_ltb, !Z.ltb_irrefl. exact IH.
Qed.

Lemma insert_loop_landing (sub : NodePtr) :
  forall rt val prev tmp fuel,
    deref rt tmp = sub ->
    match landing val sub prev tmp with
    | None => insert_loop fuel rt val prev tmp = OutOfFuel
    | Some q =>
        ((depth sub < fuel)%nat -> insert_loop fuel rt val prev tmp = Ret q) /\
        (insert_loop fuel rt val prev tmp = Ret q \/
         insert_loop fuel rt val prev tmp = OutOfFuel)
    end.
Proof.
  induction sub as [|v l IHl r IHr]; intros rt val prev tmp fuel H.
  - simpl. destruct fuel as [|fuel]; simpl.
    + split; [lia | now right].
    + rewrite H. split; [reflexivity | now left].
  - simpl landing.
    destruct (val >? v) eqn:Hgt; [|destruct (val <? v) eqn:Hlt].
    + specialize (IHr rt val (Some tmp) (tmp ++ [to_right]) (pred fuel)).
      rewrite deref_snoc, H in IHr. specialize (IHr eq_refl).
      destruct fuel as [|fuel]; simpl in *.
      * destruct (landing val r (Some tmp) (tmp ++ [to_right])); auto.
        split; [lia | now right].
      * rewrite H, Hgt.
        destruct (landing val r (Some tmp) (tmp ++ [to_right])); auto.
        destruct IHr as [Hok Hcase]. split; auto. intro. apply Hok. lia.
    + specialize (IHl rt val (Some tmp) (tmp ++ [to_left]) (pred fuel)).
      rewrite deref_snoc, H in IHl. specialize (IHl eq_refl).
      destruct fuel as [|fuel]; simpl in *.
      * destruct (landing val l (Some tmp) (tmp ++ [to_left])); auto.
        split; [lia | now right].
      * rewrite H, Hgt, Hlt.
        destruct (landing val l (Some tmp) (tmp ++ [to_left])); auto.
        destruct IHl as [Hok Hcase]. split; auto. intro. apply Hok. lia.
    + assert (val = v) by lia. subst v.
      eapply insert_loop_stall; eassumption.
Qed.

(** The assignment after the loop builds the recursive insertion. *)
Lemma landing_ins (sub : NodePtr) :
  forall rt val prev tmp res v l r,
    sub = node v l r ->
    deref rt tmp = sub ->
    landing val sub prev tmp = Some res ->
    exists q pv pl pr,
      res = Some q /\ deref rt q = node pv pl pr /\
      assign_slot rt q (if pv >? val then to_left else to_right)
        (node val nullptr nullptr) = graft rt tmp (ins val sub).
Proof.
  induction sub as [|v0 l0 IHl r0 IHr]; intros rt val prev tmp res v l r E H L.
  - discriminate.
  - clear E. simpl in L. simpl ins.
    destruct (val >? v0) eqn:Hgt; [|destruct (val <? v0) eqn:Hlt]; [| |discriminate].
    + destruct r0 as [|rv rl rr].
      * simpl in L. injection L as <-.
        exists tmp, v0, l0, nullptr. repeat split; auto.
        replace (v0 >? val) with false by lia.
        erewrite assign_slot_graft by eassumption. reflexivity.
      * eapply IHr in L; [|reflexivity|rewrite deref_snoc, H; reflexivity].
        destruct L as (q & pv & pl & pr & -> & Hq & Ha).
        exists q, pv, pl, pr. repeat split; auto.
        rewrite Ha. erewrite graft_snoc by eassumption. reflexivity.
    + destruct l0 as [|lv ll lr].
      * simpl in L. injection L as <-.
        exists tmp, v0, nullptr, r0. repeat split; auto.
        replace (v0 >? val) with true by lia.
        erewrite assign_slot_graft by eassumption. reflexivity.
      * eapply IHl in L; [|reflexivity|rewrite deref_snoc, H; reflexivity].
        destruct L as (q & pv & pl & pr & -> & Hq & Ha).
        exists q, pv, pl, pr. repeat split; auto.
        rewrite Ha. erewrite graft_snoc by eassumption. reflexivity.
Qed.

Lemma landing_contains (sub : NodePtr) :
  forall val prev tmp,
    landing val sub prev tmp = None <-> contains_loop sub val = true.
Proof.
  induction sub as [|v l IHl r IHr]; intros val prev tmp; simpl.
  - split; discriminate.
  - destruct (v =? val) eqn:E.
    + replace (val >? v) with false by lia. replace (val <? v) with false by lia.
      tauto.
    + destruct (val >? v) eqn:Hgt.
      * replace (v >? val) with false by lia. apply IHr.
      * replace (val <? v) with true by lia. replace (v >? val) with true by lia.
        apply IHl.
Qed.

(** [insert] on a tree that holds [val] on the search path never returns. *)
Lemma insert_diverges (t : BinaryTree) (val : Z) :
  contains t val = true -> forall fuel, insert fuel val t = OutOfFuel.
Proof.
  unfold contains, insert. intros C fuel.
  destruct (root t) as [|v l r] eqn:R; [discriminate|].
  pose proof (insert_loop_landing (node v l r) (node v l r) val None [] fuel eq_refl) as L.
  apply (landing_contains _ val None []) in C. rewrite C in L.
  now rewrite L.
Qed.

(** [insert] of a value that is not on the search path returns once the fuel
    exceeds the depth of the tree, and the new tree is the recursive insertion. *)
Lemma insert_returns (t : BinaryTree) (val : Z) (fuel : nat) :
  contains t val = false -> (depth (root t) < fuel)%nat ->
  insert fuel val t = Ret (mkTree (ins val (root t)) (order t)).
Proof.
  unfold contains, insert. intros C F.
  destruct (root t) as [|v l r] eqn:R; [reflexivity|].
  pose proof (insert_loop_landing (node v l r) (node v l r) val None [] fuel eq_refl) as L.
  destruct (landing val (node v l r) None []) as [res|] eqn:E.
  - destruct L as [L _]. rewrite (L F). simpl bind.
    destruct (landing_ins _ (node v l r) val None [] res v l r eq_refl eq_refl E)
      as (q & pv & pl & pr & -> & Hq & Ha).
    rewrite Hq. revert Ha. destruct (pv >? val); intros Ha; do 2 f_equal; exact Ha.
  - apply landing_contains in E. congruence.
Qed.

(** Whenever [insert] returns, the value was not on the search path and the
    new tree is the recursive insertion. *)
Lemma insert_ret_inv (t t' : BinaryTree) (val : Z) (fuel : nat) :
  insert fuel val t = Ret t' ->
  contains t val = false /\ t' = mkTree (ins val (root t)) (order t).
Proof.
  unfold contains, insert. intro H.
  destruct (root t) as [|v l r] eqn:R.
  - injection H as <-. auto.
  - pose proof (insert_loop_landing (node v l r) (node v l r) val None [] fuel eq_refl) as L.
    destruct (landing val (node v l r) None []) as [res|] eqn:E.
    + split.
      * destruct (contains_loop (node v l r) val) eqn:C; auto.
        apply (landing_contains _ val None []) in C. congruence.
      * destruct L as [_ [L|L]]; rewrite L in H; [|discriminate]. simpl bind in H.
        destruct (landing_ins _ (node v l r) val None [] res v l r eq_refl eq_refl E)
          as (q & pv & pl & pr & -> & Hq & Ha).
        rewrite Hq in H. revert Ha H.
        destruct (pv >? val); intros Ha H; injection H as <-; f_equal; exact Ha.
    + rewrite L in H. discriminate.
Qed.

(** ** The search-tree invariant *)

Lemma contains_unfold (t : BinaryTree) (val : Z) :
  contains t val = contains_loop (root t) val.
Proof. unfold contains. destruct (root t); reflexivity. Qed.

Lemma In_ins (val x : Z) (n : NodePtr) :
  In x (seq_of (ins val n)) <-> x = val \/ In x (seq_of n).
Proof.
  induction n as [|v l IHl r IHr]; cbn [ins].
  - rewrite seq_of_node, seq_of_null. simpl. intuition.
  - destruct (val >? v) eqn:Hgt; [|destruct (val <? v) eqn:Hlt];
      rewrite ?seq_of_node, ?in_app_iff; cbn [In]; rewrite ?in_app_iff.
    + rewrite IHr. intuition.
    + rewrite IHl. intuition.
    + assert (val = v) by lia. subst. intuition.
Qed.

Lemma Forall_ins (P : Z -> Prop) (val : Z) (n : NodePtr) :
  P val -> Forall P (seq_of n) -> Forall P (seq_of (ins val n)).
Proof.
  rewrite !Forall_forall. intros Hv Hn x Hx.
  apply In_ins in Hx. destruct Hx as [->|Hx]; auto.
Qed.

Lemma bst_ins (val : Z) (n : NodePtr) : bst n -> bst (ins val n).
Proof.
  induction n as [|v l IHl r IHr]; simpl.
  - intros _. rewrite seq_of_null. repeat split; constructor.
  - intros (Bl & Br & Fl & Fr).
    destruct (val >? v) eqn:Hgt; [|destruct (val <? v) eqn:Hlt]; simpl.
    + repeat split; auto. apply Forall_ins; auto. lia.
    + repeat split; auto. apply Forall_ins; auto. lia.
    + repeat split; auto.
Qed.

Lemma length_ins (val : Z) (n : NodePtr) :
  contains_loop n val = false ->
  List.length (seq_of (ins val n)) = S (List.length (seq_of n)).
Proof.
  induction n as [|v l IHl r IHr]; simpl; intro C.
  - reflexivity.
  - destruct (v =? val) eqn:E; [discriminate|].
    destruct (val >? v) eqn:Hgt.
    + replace (v >? val) with false in C by lia.
      rewrite !seq_of_node, !length_app. simpl. rewrite (IHr C). lia.
    + replace (val <? v) with true by lia.
      replace (v >? val) with true in C by lia.
      rewrite !seq_of_node, !length_app. simpl. rewrite (IHl C). lia.
Qed.

Lemma StronglySorted_app_cons (l1 l2 : list Z) (v : Z) :
  StronglySorted Z.lt l1 -> StronglySorted Z.lt l2 ->
  Forall (fun x => x < v) l1 -> Forall (fun x => v < x) l2 ->
  StronglySorted Z.lt (l1 ++ v :: l2).
Proof.
  intros S1 S2 F1 F2. induction l1 as [|a l1 IH]; simpl.
  - constructor; auto.
  - inversion S1 as [|? ? S1' Fa]; subst. inversion F1 as [|? ? Hav F1']; subst.
    constructor; auto.
    apply Forall_app. split; auto. constructor; auto.
    eapply Forall_impl; [|exact F2]. simpl. intros; lia.
Qed.

Lemma bst_sorted (n : NodePtr) : bst n -> StronglySorted Z.lt (seq_of n).
Proof.
  induction n as [|v l IHl r IHr]; simpl.
  - intros _. constructor.
  - intros (Bl & Br & Fl & Fr). rewrite seq_of_node.
    apply StronglySorted_app_cons; auto.
Qed.

Lemma StronglySorted_lt_le (l : list Z) :
  StronglySorted Z.lt l -> StronglySorted Z.le l.
Proof.
  induction 1; constructor; auto.
  eapply Forall_impl; [|eassumption]. simpl. intros; lia.
Qed.

Lemma contains_loop_In (x : Z) (n : NodePtr) :
  bst n -> (contains_loop n x = true <-> In x (seq_of n)).
Proof.
  induction n as [|v l IHl r IHr]; simpl.
  - intros _. split; [discriminate | tauto].
  - intros (Bl & Br & Fl & Fr). rewrite seq_of_node, in_app_iff. simpl.
    rewrite Forall_forall in Fl, Fr.
    destruct (v =? x) eqn:E.
    + assert (v = x) by lia. tauto.
    + destruct (v >? x) eqn:G.
      * rewrite (IHl Bl). split; [tauto|].
        intros [H|[H|H]]; auto; [lia | apply Fr in H; lia].
      * rewrite (IHr Br). split; [tauto|].
        intros [H|[H|H]]; auto; [apply Fl in H; lia | lia].
Qed.

(** Distinct values that are not yet stored can all be inserted, given fuel
    for the deepest walk. *)
Lemma insert_all_distinct (vals : list Z) :
  forall t0 fuel,
    bst (root t0) -> NoDup vals ->
    (forall v, In v vals -> ~ In v (seq_of (root t0))) ->
    (List.length (seq_of (root t0)) + List.length vals <= fuel)%nat ->
    exists t,
      insert_all fuel vals t0 = Ret t /\ bst (root t) /\ order t = order t0 /\
      forall x, In x (seq_of (root t)) <-> In x vals \/ In x (seq_of (root t0)).
Proof.
  induction vals as [|v rest IH]; simpl; intros t0 fuel B ND Fresh F.
  - exists t0. repeat split; auto; tauto.
  - inversion ND as [|? ? Hnotin ND']; subst.
    assert (C : contains t0 v = false).
    { rewrite contains_unfold. destruct (contains_loop (root t0) v) eqn:C; auto.
      apply contains_loop_In in C; auto. exfalso. eapply Fresh; eauto. }
    rewrite (insert_returns t0 v fuel C).
    2:{ pose proof (depth_le_size (root t0)). lia. }
    simpl bind.
    destruct (IH (mkTree (ins v (root t0)) (order t0)) fuel) as (t & Hr & Bt & Ot & Ht).
    + simpl. now apply bst_ins.
    + exact ND'.
    + simpl. intros x Hx Hin. apply In_ins in Hin. destruct Hin as [->|Hin]; auto.
      eapply Fresh; eauto.
    + simpl. rewrite contains_unfold in C. rewrite (length_ins _ _ C). lia.
    + exists t. repeat split; auto.
      * intro Hx. apply Ht in Hx. simpl in Hx. rewrite In_ins in Hx. intuition.
      * intro Hx. apply Ht. simpl. rewrite In_ins. intuition.
Qed.

(** ** Deletion of an absent value *)

Lemma recursiveDelete_absent (val : Z) (n : NodePtr) :
  ~ In val (seq_of n) -> recursiveDelete n val = Ret (false, n).
Proof.
  induction n as [|v l IHl r IHr]; intro H; cbn [recursiveDelete].
  - reflexivity.
  - rewrite seq_of_node, in_app_iff in H. cbn [In] in H.
    destruct (v =? val) eqn:E; [exfalso; apply H; right; left; lia|].
    destruct (val <? v).
    + rewrite IHl by tauto. reflexivity.
    + rewrite IHr by tauto. reflexivity.
Qed.

(** ** Leftmost and rightmost nodes *)

Lemma leftmost_head (v : Z) (l r : NodePtr) :
  exists lo rest, leftmost (node v l r) = Ret lo /\ seq_of (node v l r) = lo :: rest.
Proof.
  revert v r. induction l as [|lv ll IHl lr _]; intros v r.
  - exists v, (seq_of r). split; [reflexivity|]. now rewrite seq_of_node.
  - destruct (IHl lv lr) as (lo & rest & Hl & Hs).
    exists lo, (rest ++ v :: seq_of r). split.
    + exact Hl.
    + rewrite seq_of_node, Hs. reflexivity.
Qed.

Lemma rightmost_last (v : Z) (l r : NodePtr) :
  exists hi front, rightmost (node v l r) = Ret hi /\ seq_of (node v l r) = front ++ [hi].
Proof.
  revert v l. induction r as [|rv rl _ rr IHr]; intros v l.
  - exists v, (seq_of l). split; [reflexivity|]. now rewrite seq_of_node.
  - destruct (IHr rv rl) as (hi & front & Hr & Hs).
    exists hi, (seq_of l ++ v :: front). split.
    + exact Hr.
    + rewrite seq_of_node, Hs, <- app_assoc. reflexivity.
Qed.

(** ** Machine integers in range *)

Lemma int_wrap_small (z : Z) : - 2 ^ 31 <= z < 2 ^ 31 -> int_wrap z = z.
Proof. intro H. unfold int_wrap. rewrite Z.mod_small; lia. Qed.

Lemma size_t_wrap_small (z : Z) : 0 <= z < 2 ^ 64 -> size_t_wrap z = z.
Proof. intro H. unfold size_t_wrap. apply Z.mod_small; lia. Qed.

Lemma recursiveGetHeight_depth (n : NodePtr) :
  Z.of_nat (depth n) < 2 ^ 64 -> recursiveGetHeight n = Z.of_nat (depth n).
Proof.
  induction n as [|v l IHl r IHr]; cbn [depth recursiveGetHeight]; intro H.
  - reflexivity.
  - rewrite IHl, IHr by lia. rewrite size_t_wrap_small; lia.
Qed.

(** ** The rebuild *)

Lemma vector_at_middle (pre post : list Z) (x i : Z) :
  i = Z.of_nat (List.length pre) -> i < 2 ^ 64 ->
  vector_at (pre ++ x :: post) i = Ret x.
Proof.
  intros -> Hi. unfold vector_at. cbv zeta.
  rewrite size_t_wrap_small by lia.
  rewrite length_app. cbn [List.length].
  replace (Z.of_nat (List.length pre) <? Z.of_nat (List.length pre + S (List.length post)))
    with true by (symmetry; apply Z.ltb_lt; lia).
  rewrite Nat2Z.id, nth_error_app2 by lia.
  now rewrite Nat.sub_diag.
Qed.

Lemma split_at (k : nat) (body : list Z) :
  (k < List.length body)%nat ->
  exists x, body = firstn k body ++ x :: skipn (S k) body.
Proof.
  revert body. induction k as [|k IH]; intros [|a body] H; simpl in H; try lia.
  - exists a. reflexivity.
  - destruct (IH body) as [x Hx]; [lia|]. exists x.
    change (a :: body = a :: (firstn k body ++ x :: skipn (S k) body)).
    now rewrite <- Hx.
Qed.

(** On a range that lies inside a vector of at most [2^30] elements the
    rebuild returns a tree whose in-order sequence is the range and whose depth
    is logarithmic in the length of the range. *)
Lemma makeNode_range (fuel : nat) :
  forall pre body post low high,
    low = Z.of_nat (List.length pre) ->
    high = low + Z.of_nat (List.length body) - 1 ->
    Z.of_nat (List.length (pre ++ body ++ post)) <= 2 ^ 30 ->
    (List.length body < fuel)%nat ->
    exists t,
      makeNode fuel low high (pre ++ body ++ post) = Ret t /\
      seq_of t = body /\
      forall h, Z.of_nat (List.length body) < 2 ^ Z.of_nat h -> (depth t <= h)%nat.
Proof.
  induction fuel as [|fuel IH]; intros pre body post low high Hlow Hhigh Hlen Hfuel; [lia|].
  cbn [makeNode].
  rewrite !length_app in Hlen.
  destruct (low >? high) eqn:Hgt.
  - assert (List.length body = O) by lia.
    destruct body; [|discriminate].
    exists nullptr. repeat split. intros; simpl; lia.
  - set (n := Z.of_nat (List.length body)) in *.
    assert (Hn : 1 <= n) by lia.
    rewrite (int_wrap_small (low + high)) by lia.
    rewrite Z.quot_div_nonneg by lia.
    set (mid := (low + high) / 2).
    assert (Hmid : mid = low + (n - 1) / 2).
    { unfold mid. replace (low + high) with ((n - 1) + low * 2) by lia.
      rewrite Z.div_add by lia. lia. }
    assert (Hk : 0 <= (n - 1) / 2 < n).
    { split; [apply Z.div_pos; lia|]. apply Z.div_lt_upper_bound; lia. }
    set (k := Z.to_nat ((n - 1) / 2)).
    destruct (split_at k body) as [x Hx]; [unfold k, n in *; lia|].
    assert (Lf : List.length (firstn k body) = k).
    { rewrite length_firstn. unfold k, n in *. lia. }
    assert (Ls : List.length (skipn (S k) body) = (List.length body - S k)%nat).
    { apply length_skipn. }
    assert (E1 : pre ++ firstn k body ++ (x :: skipn (S k) body ++ post) =
                 pre ++ body ++ post).
    { f_equal. transitivity ((firstn k body ++ x :: skipn (S k) body) ++ post).
      - now rewrite <- app_assoc.
      - now rewrite <- Hx. }
    assert (E2 : (pre ++ firstn k body ++ [x]) ++ skipn (S k) body ++ post =
                 pre ++ body ++ post).
    { rewrite <- E1, <- !app_assoc. reflexivity. }
    assert (Hread : vector_at (pre ++ body ++ post) mid = Ret x).
    { rewrite <- E1, app_assoc.
      apply vector_at_middle; [rewrite length_app, Lf; unfold k; lia|lia]. }
    rewrite Hread. cbn [bind].
    rewrite !int_wrap_small by lia.
    destruct (IH pre (firstn k body) (x :: skipn (S k) body ++ post) low (mid - 1))
      as (tl & Hl & Sl & Dl).
    { exact Hlow. }
    { rewrite Lf. unfold k. lia. }
    { rewrite E1, !length_app. lia. }
    { rewrite Lf. unfold k, n in *. lia. }
    rewrite E1 in Hl. rewrite Hl. cbn [bind].
    destruct (IH (pre ++ firstn k body ++ [x]) (skipn (S k) body) post (mid + 1) high)
      as (tr & Hr & Sr & Dr).
    { rewrite !length_app, Lf. cbn [List.length]. unfold k. lia. }
    { rewrite Ls. unfold k, n in *. lia. }
    { rewrite E2, !length_app. lia. }
    { rewrite Ls. lia. }
    rewrite E2 in Hr. rewrite Hr. cbn [bind].
    exists (node x tl tr). split; [reflexivity|]. split.
    + rewrite seq_of_node, Sl, Sr. now rewrite <- Hx.
    + intros h Hh. destruct h as [|h].
      { simpl in Hh. lia. }
      rewrite Nat2Z.inj_succ, Z.pow_succ_r in Hh by lia.
      set (P := 2 ^ Z.of_nat h) in *.
      assert (DL : (depth tl <= h)%nat).
      { apply Dl. rewrite Lf. fold P. unfold k.
        rewrite Z2Nat.id by lia. apply Z.div_lt_upper_bound; lia. }
      assert (DR : (depth tr <= h)%nat).
      { apply Dr. rewrite Ls. fold P.
        assert ((n - 1) <= 2 * ((n - 1) / 2) + 1).
        { pose proof (Z.div_mod (n - 1) 2). pose proof (Z.mod_pos_bound (n - 1) 2). lia. }
        unfold k, n in *. lia. }
      cbn [depth]. lia.
Qed.

Lemma firstn_skipn_middle (v : list Z) (a b : nat) :
  v = firstn a v ++ firstn b (skipn a v) ++ skipn b (skipn a v).
Proof. now rewrite !firstn_skipn. Qed.

(** The same for a range given by its bounds. *)
Lemma makeNode_slice (fuel : nat) (v : list Z) (low high : Z) :
  0 <= low -> low <= high + 1 -> high < Z.of_nat (List.length v) ->
  Z.of_nat (List.length v) <= 2 ^ 30 ->
  high - low + 1 < Z.of_nat fuel ->
  exists t,
    makeNode fuel low high v = Ret t /\
    seq_of t = firstn (Z.to_nat (high - low + 1)) (skipn (Z.to_nat low) v) /\
    forall h, high - low + 1 < 2 ^ Z.of_nat h -> (depth t <= h)%nat.
Proof.
  intros Hlow Hle Hhigh Hlen Hfuel.
  set (a := Z.to_nat low). set (b := Z.to_nat (high - low + 1)).
  assert (La : List.length (firstn a v) = a).
  { rewrite length_firstn. unfold a. lia. }
  assert (Lb : List.length (firstn b (skipn a v)) = b).
  { rewrite length_firstn, length_skipn. unfold a, b. lia. }
  destruct (makeNode_range fuel (firstn a v) (firstn b (skipn a v))
              (skipn b (skipn a v)) low high) as (t & Ht & St & Dt).
  - rewrite La. unfold a. lia.
  - rewrite Lb. unfold b. lia.
  - now rewrite <- firstn_skipn_middle.
  - rewrite Lb. unfold b. lia.
  - rewrite <- firstn_skipn_middle in Ht. exists t. repeat split; auto.
    intros h Hh. apply Dt. rewrite Lb. unfold b. lia.
Qed.

(** Once the upper bound of a range reaches [2^30] the rebuild of that range
    does not return: along the rightmost ranges [low + high] exceeds the
    largest [int], the middle index becomes negative and the vector is read
    out of range. *)
Lemma makeNode_overflow (fuel : nat) :
  forall low high v,
    0 <= low <= high -> 2 ^ 30 <= high < 2 ^ 31 ->
    Z.of_nat (List.length v) <= 2 ^ 31 ->
    forall t, makeNode fuel low high v <> Ret t.
Proof.
  induction fuel as [|fuel IH]; intros low high v Hlow Hhigh Hlen t; cbn [makeNode].
  - discriminate.
  - replace (low >? high) with false by lia.
    destruct (Z_lt_le_dec (low + high) (2 ^ 31)) as [Hs|Hs].
    + rewrite (int_wrap_small (low + high)) by lia.
      assert (Hm : low <= Z.quot (low + high) 2 < high).
      { Z.to_euclidean_division_equations. lia. }
      set (mid := Z.quot (low + high) 2) in *.
      destruct (vector_at v mid) as [x| | |]; cbn [bind]; try discriminate.
      rewrite !int_wrap_small by lia.
      destruct (makeNode fuel low (mid - 1) v) as [l| | |]; cbn [bind]; try discriminate.
      destruct (makeNode fuel (mid + 1) high v) as [r| | |] eqn:E; cbn [bind];
        try discriminate.
      exfalso. apply (IH (mid + 1) high v) with (t := r); auto. lia.
    + assert (Hw : int_wrap (low + high) = low + high - 2 ^ 32).
      { unfold int_wrap. Z.to_euclidean_division_equations. lia. }
      rewrite Hw.
      assert (Hm : - 2 ^ 30 <= Z.quot (low + high - 2 ^ 32) 2 <= -1).
      { Z.to_euclidean_division_equations. lia. }
      set (mid := Z.quot (low + high - 2 ^ 32) 2) in *.
      unfold vector_at. cbv zeta.
      assert (Hi : size_t_wrap mid = mid + 2 ^ 64).
      { unfold size_t_wrap. Z.to_euclidean_division_equations. lia. }
      rewrite Hi.
      replace (mid + 2 ^ 64 <? Z.of_nat (List.length v)) with false
        by (symmetry; apply Z.ltb_ge; lia).
      discriminate.
Qed.

Lemma vector_at_in_range (v : list Z) (i : Z) :
  0 <= i < Z.of_nat (List.length v) -> Z.of_nat (List.length v) < 2 ^ 64 ->
  exists x, vector_at v i = Ret x.
Proof.
  intros Hi Hlen. unfold vector_at. cbv zeta.
  rewrite size_t_wrap_small by lia.
  replace (i <? Z.of_nat (List.length v)) with true by lia.
  destruct (nth_error v (Z.to_nat i)) as [x|] eqn:E.
  - now exists x.
  - apply nth_error_None in E. lia.
Qed.

Lemma balance_high_small (v : list Z) :
  Z.of_nat (List.length v) <= 2 ^ 31 ->
  balance_high v = Z.of_nat (List.length v) - 1.
Proof.
  intro H. unfold balance_high, int_wrap, size_t_wrap.
  Z.to_euclidean_division_equations. lia.
Qed.

(** ** Rendering *)

Lemma string_app_assoc (a b c : string) :
  String.append (String.append a b) c = String.append a (String.append b c).
Proof. induction a as [|ch a IH]; simpl; [reflexivity | now rewrite IH]. Qed.

Lemma string_app_empty (a : string) : String.append a EmptyString = a.
Proof. induction a as [|ch a IH]; simpl; [reflexivity | now rewrite IH]. Qed.

Lemma render_app (xs ys : list Z) :
  render (xs ++ ys) = String.append (render xs) (render ys).
Proof.
  induction xs as [|x xs IH]; cbn [render app].
  - reflexivity.
  - rewrite IH. cbn [String.append]. now rewrite string_app_assoc.
Qed.

Lemma recursiveInOrder_renders (n : NodePtr) :
  recursiveInOrder n = render (preorder_seq n).
Proof.
  induction n as [|v l IHl r IHr]; cbn [recursiveInOrder preorder_seq render].
  - reflexivity.
  - now rewrite render_app, IHl, IHr.
Qed.

Lemma recursivePreOrder_renders (n : NodePtr) :
  recursivePreOrder n = render (inorder_seq n).
Proof.
  induction n as [|v l IHl r IHr]; cbn [recursivePreOrder inorder_seq].
  - reflexivity.
  - rewrite render_app, IHl, IHr. reflexivity.
Qed.

Lemma recursivePostOrder_renders (n : NodePtr) :
  recursivePostOrder n = render (postorder_seq n).
Proof.
  induction n as [|v l IHl r IHr]; cbn [recursivePostOrder postorder_seq].
  - reflexivity.
  - rewrite !render_app, IHl, IHr. cbn [render String.append].
    now rewrite string_app_empty.
Qed.

Lemma inorder_seq_seq_of (n : NodePtr) : inorder_seq n = seq_of n.
Proof.
  induction n as [|v l IHl r IHr]; cbn [inorder_seq].
  - reflexivity.
  - now rewrite seq_of_node, IHl, IHr.
Qed.

(** What [print] renders under each of the three named modes: the sequence
    of the mode [InOrder] is the pre-order sequence and that of [PreOrder] the
    in-order sequence. *)
Lemma print_renders (t : BinaryTree) :
  order t <> UnnamedOrder ->
  print t =
  Ret (render (match order t with
               | InOrder => preorder_seq (root t)
               | PreOrder => inorder_seq (root t)
               | _ => postorder_seq (root t)
               end)).
Proof.
  intro N. unfold print. destruct (root t) as [|v l r] eqn:R.
  - destruct (order t); reflexivity.
  - destruct (order t);
      rewrite ?recursiveInOrder_renders, ?recursivePreOrder_renders,
              ?recursivePostOrder_renders; try reflexivity.
    congruence.
Qed.

(** [print] throws exactly on a tree that is not empty and whose stored mode
    is the value that is no enumerator. *)
Lemma print_throws (t : BinaryTree) :
  root t <> nullptr -> order t = UnnamedOrder ->
  print t = Throw (invalid_argument "Order value invalid 3").
Proof.
  intros N O. unfold print. rewrite O. destruct (root t); [contradiction | reflexivity].
Qed.

(** ** Copy construction *)

Lemma In_preorder_seq (x : Z) (n : NodePtr) :
  In x (preorder_seq n) <-> In x (seq_of n).
Proof.
  induction n as [|v l IHl r IHr]; cbn [preorder_seq].
  - reflexivity.
  - rewrite seq_of_node. cbn [In]. rewrite !in_app_iff. cbn [In].
    rewrite IHl, IHr. tauto.
Qed.

Lemma length_preorder_seq (n : NodePtr) :
  List.length (preorder_seq n) = List.length (seq_of n).
Proof.
  induction n as [|v l IHl r IHr]; cbn [preorder_seq].
  - reflexivity.
  - rewrite seq_of_node. cbn [List.length]. rewrite !length_app. cbn [List.length]. lia.
Qed.

Lemma NoDup_preorder_seq (n : NodePtr) : bst n -> NoDup (preorder_seq n).
Proof.
  induction n as [|v l IHl r IHr]; cbn [preorder_seq bst].
  - constructor.
  - intros (Bl & Br & Fl & Fr). rewrite Forall_forall in Fl, Fr.
    constructor.
    + rewrite in_app_iff, !In_preorder_seq. intros [H|H].
      * apply Fl in H. lia.
      * apply Fr in H. lia.
    + apply NoDup_app; auto.
      intros x Hl Hr. rewrite In_preorder_seq in Hl, Hr.
      apply Fl in Hl. apply Fr in Hr. lia.
Qed.

Lemma filter_keep (f : Z -> bool) (xs : list Z) :
  (forall x, In x xs -> f x = true) -> filter f xs = xs.
Proof.
  induction xs as [|a xs IH]; intro H; cbn [filter]; [reflexivity|].
  rewrite (H a) by (now left). rewrite IH; auto. intros x Hx. apply H. now right.
Qed.

Lemma filter_drop (f : Z -> bool) (xs : list Z) :
  (forall x, In x xs -> f x = false) -> filter f xs = [].
Proof.
  induction xs as [|a xs IH]; intro H; cbn [filter]; [reflexivity|].
  rewrite (H a) by (now left). apply IH. intros x Hx. apply H. now right.
Qed.

Lemma ins_all_node (xs : list Z) :
  forall v a b,
    ~ In v xs ->
    ins_all xs (node v a b) =
    node v (ins_all (filter (fun x => x <? v) xs) a)
           (ins_all (filter (fun x => x >? v) xs) b).
Proof.
  unfold ins_all.
  induction xs as [|x xs IH]; intros v a b H; cbn [fold_left filter].
  - reflexivity.
  - cbn [In] in H. cbn [ins].
    destruct (x >? v) eqn:G; [|destruct (x <? v) eqn:L].
    + replace (x <? v) with false by lia. rewrite IH by tauto. reflexivity.
    + rewrite IH by tauto. reflexivity.
    + exfalso. apply H. left. lia.
Qed.

(** Re-inserting the values of a search tree in pre-order rebuilds it. *)
Lemma ins_all_preorder (n : NodePtr) : bst n -> ins_all (preorder_seq n) nullptr = n.
Proof.
  induction n as [|v l IHl r IHr]; cbn [preorder_seq bst].
  - reflexivity.
  - intros (Bl & Br & Fl & Fr). rewrite Forall_forall in Fl, Fr.
    change (ins_all (v :: preorder_seq l ++ preorder_seq r) nullptr)
      with (ins_all (preorder_seq l ++ preorder_seq r) (node v nullptr nullptr)).
    rewrite ins_all_node.
    + rewrite !filter_app.
      rewrite (filter_keep (fun x => x <? v) (preorder_seq l)),
              (filter_drop (fun x => x <? v) (preorder_seq r)),
              (filter_drop (fun x => x >? v) (preorder_seq l)),
              (filter_keep (fun x => x >? v) (preorder_seq r)).
      * rewrite app_nil_r. cbn [app]. now rewrite IHl, IHr.
      * intros x Hx. apply In_preorder_seq, Fr in Hx. lia.
      * intros x Hx. apply In_preorder_seq, Fl in Hx. lia.
      * intros x Hx. apply In_preorder_seq, Fr in Hx. lia.
      * intros x Hx. apply In_preorder_seq, Fl in Hx. lia.
    + rewrite in_app_iff, !In_preorder_seq. intros [H|H].
      * apply Fl in H. lia.
      * apply Fr in H. lia.
Qed.

Lemma pending_step (v : Z) (l r : NodePtr) (remaining : list NodePtr) :
  pending (node v l r) remaining =
  v :: pending l (if is_null r then remaining else r :: remaining).
Proof.
  unfold pending. cbn [preorder_seq]. destruct r as [|rv rl rr]; cbn [is_null flat_map].
  - cbn [preorder_seq]. now rewrite app_nil_r.
  - cbn [app]. now rewrite <- app_assoc.
Qed.

(** The copy loop inserts the pending values in order. *)
Lemma copy_loop_inserts (fuel : nat) :
  forall self v l r remaining,
    Forall (fun p => is_null p = false) remaining ->
    bst (root self) ->
    NoDup (pending (node v l r) remaining) ->
    (forall x, In x (pending (node v l r) remaining) -> ~ In x (seq_of (root self))) ->
    (List.length (seq_of (root self)) +
     2 * List.length (pending (node v l r) remaining) <= fuel)%nat ->
    copy_loop fuel self (node v l r) remaining =
    Ret (mkTree (ins_all (pending (node v l r) remaining) (root self)) (order self)).
Proof.
  induction fuel as [|fuel IH]; intros self v l r remaining NN B ND Fresh F.
  - rewrite pending_step in F. cbn [List.length] in F. lia.
  - rewrite pending_step in *. cbn [List.length] in F.
    set (remaining' := if is_null r then remaining else r :: remaining) in *.
    assert (NN' : Forall (fun p => is_null p = false) remaining').
    { unfold remaining'. destruct r; cbn [is_null]; auto. }
    inversion ND as [|? ? Hv ND']; subst.
    assert (C : contains self v = false).
    { rewrite contains_unfold. destruct (contains_loop (root self) v) eqn:C; auto.
      apply contains_loop_In in C; auto. exfalso. apply (Fresh v); [now left | exact C]. }
    cbn [copy_loop].
    rewrite (insert_returns self v fuel C).
    2:{ pose proof (depth_le_size (root self)). lia. }
    cbn [bind]. fold remaining'.
    assert (Fresh' : forall x, In x (pending l remaining') ->
                               ~ In x (seq_of (ins v (root self)))).
    { intros x Hx Hin. apply In_ins in Hin. destruct Hin as [->|Hin]; auto.
      apply (Fresh x); [now right | exact Hin]. }
    assert (Len : List.length (seq_of (ins v (root self))) =
                  S (List.length (seq_of (root self)))).
    { apply length_ins. now rewrite <- contains_unfold. }
    change (ins_all (v :: pending l remaining') (root self))
      with (ins_all (pending l remaining') (ins v (root self))).
    destruct l as [|lv ll lr]; cbn [is_null negb].
    + destruct remaining' as [|back rest] eqn:R.
      * reflexivity.
      * inversion NN' as [|? ? Hb NNr]; subst.
        destruct back as [|bv bl br]; [discriminate|].
        change (pending nullptr (node bv bl br :: rest))
          with (pending (node bv bl br) rest) in *.
        rewrite IH; auto.
        -- cbn [root]. now apply bst_ins.
        -- cbn [root]. lia.
    + rewrite IH; auto.
      * cbn [root]. now apply bst_ins.
      * cbn [root]. lia.
Qed.

(** Copy construction from a search tree returns a tree equal to the source,
    node for node. *)
Lemma copy_construct_bst (fuel : nat) (other : BinaryTree) :
  bst (root other) -> (2 * List.length (inorder other) < fuel)%nat ->
  copy_construct fuel other = Ret other.
Proof.
  intros B F. unfold copy_construct. destruct other as [rt o]. cbn [root order] in *.
  unfold inorder in F. cbn [root] in F. fold (seq_of rt) in F.
  destruct rt as [|v l r].
  - destruct fuel; [lia | reflexivity].
  - rewrite copy_loop_inserts.
    + cbn [bind root]. unfold pending. cbn [flat_map]. rewrite app_nil_r.
      now rewrite ins_all_preorder.
    + constructor.
    + exact I.
    + unfold pending. cbn [flat_map]. rewrite app_nil_r. now apply NoDup_preorder_seq.
    + intros x _ H. exact H.
    + unfold pending. cbn [flat_map root]. rewrite app_nil_r, length_preorder_seq.
      rewrite seq_of_null. cbn [List.length]. lia.
Qed.

(** One returning [insert] inside a larger computation. *)
Ltac insert_step :=
  match goal with
  | |- context [insert ?f ?v ?t] =>
      rewrite (insert_returns t v f);
      [cbn [bind root order]; simpl ins | reflexivity | simpl; lia]
  end.

(** Copy construction from a tree that holds a value twice on one search path
    never returns: the second [insert] of the value stays in its loop. *)
Lemma copy_construct_duplicate_diverges :
  forall fuel, copy_construct fuel scenario_after_delete = OutOfFuel.
Proof.
  intro fuel. unfold copy_construct, scenario_after_delete. cbn [root order].
  do 8 (destruct fuel as [|fuel]; [reflexivity|]).
  cbn [copy_loop is_null negb].
  do 4 insert_step.
  rewrite insert_diverges by reflexivity. reflexivity.
Qed.

(** ** Deletion at a node with two children *)

(** What the two-children branch leaves in the slot: the successor's value on
    top, the left subtree, and the right child replaced by one of its own
    children. *)
Lemma recursiveDelete_two_children (v lv rv : Z) (ll lr rl rr : NodePtr) :
  exists m,
    leftmost (node rv rl rr) = Ret m /\
    recursiveDelete (node v (node lv ll lr) (node rv rl rr)) v =
    Ret (true, node m (node lv ll lr) (if is_null rl then rr else rl)).
Proof.
  destruct (leftmost_head rv rl rr) as (m & rest & Hm & _).
  exists m. split; [exact Hm|].
  cbn [recursiveDelete is_null negb andb]. rewrite Z.eqb_refl, Hm.
  cbn [bind removeNode]. now destruct (is_null rl).
Qed.

(** The concrete scenario: 5, 3, 8, 1, 4, 7, 9 inserted in that order. *)
Example scenario_checks :
  insert_all 7 [5; 3; 8; 1; 4; 7; 9] empty_tree = Ret scenario /\
  inorder scenario = [1; 3; 4; 5; 7; 8; 9] /\
  getHeight scenario = 3 /\
  getMin scenario = Ret 1 /\ getMax scenario = Ret 9 /\
  exists t',
    deleteElement scenario 3 = Ret (true, t') /\
    contains t' 3 = false /\
    inorder t' = [1; 4; 5; 7; 8; 9].
Proof.
  repeat (split; [reflexivity|]).
  eexists. repeat split; reflexivity.
Qed.

(** ** Trees past the range of [int] *)

Lemma length_ascending (count : nat) :
  forall from, List.length (seq_of (ascending count from)) = count.
Proof.
  induction count as [|count IH]; intro from; cbn [ascending].
  - reflexivity.
  - rewrite seq_of_node, seq_of_null. cbn [app List.length]. now rewrite IH.
Qed.

Lemma length_inorder_ascending (count : nat) (from : Z) (o : VisitingOrder) :
  List.length (inorder (mkTree (ascending count from) o)) = count.
Proof. apply length_ascending. Qed.

Lemma length_inorder_oversized :
  Z.of_nat (List.length (inorder oversized)) = 2 ^ 30 + 1.
Proof.
  unfold oversized.
  rewrite length_inorder_ascending. apply Z2Nat.id. discriminate.
Qed.

(** [balance] does not return on a tree of more than [2^30] elements. *)
Lemma balance_overflow (t : BinaryTree) :
  2 ^ 30 < Z.of_nat (List.length (inorder t)) <= 2 ^ 31 ->
  forall fuel t', balance fuel t <> Ret t'.
Proof.
  intros Hn fuel t' H. unfold balance in H. cbv zeta in H.
  unfold inorder in Hn.
  revert Hn H. generalize (makeInOrderVector [] (root t)). intros v Hn H.
  rewrite balance_high_small in H by lia.
  destruct (makeNode fuel 0 (Z.of_nat (List.length v) - 1) v) as [r| | |] eqn:E;
    cbn [bind] in H; try discriminate.
  apply makeNode_overflow in E; auto; lia.
Qed.

(** ** Trees built by insertion *)

Lemma built_insert_all (fuel : nat) (vals : list Z) :
  forall t0 t,
    built_by_inserts t0 -> insert_all fuel vals t0 = Ret t -> built_by_inserts t.
Proof.
  induction vals as [|v rest IH]; cbn [insert_all]; intros t0 t B H.
  - injection H as <-. exact B.
  - destruct (insert fuel v t0) as [t1| | |] eqn:E; cbn [bind] in H; try discriminate.
    eapply IH; [|exact H]. eapply built_insert; eassumption.
Qed.

Lemma built_bst (t : BinaryTree) : built_by_inserts t -> bst (root t).
Proof.
  induction 1 as [|t t' fuel val _ IH E].
  - exact I.
  - apply insert_ret_inv in E. destruct E as [_ ->]. cbn [root]. now apply bst_ins.
Qed.

(** * The operations against their description *)

(** C1.  Deleting a value stored at a node with two children: on the tree
    built by inserting 5, 3, 8, 1, 4, 7, 9, [deleteElement(5)] returns true,
    but [removeNode] is applied to the right child itself, not to its leftmost
    descendant: the right child 8 and its right subtree 9 are destroyed, the
    successor 7 is kept twice, and the in-order sequence is 1,3,4,7,7 and not
    1,3,4,7,8,9. *)
Theorem deleteElement_two_children_scenario :
  insert_all 7 [5; 3; 8; 1; 4; 7; 9] empty_tree = Ret scenario /\
  deleteElement scenario 5 = Ret (true, scenario_after_delete) /\
  inorder scenario = [1; 3; 4; 5; 7; 8; 9] /\
  inorder scenario_after_delete = [1; 3; 4; 7; 7].
Proof. repeat split; reflexivity. Qed.

(** C2.  [insert] of a value equal to a stored one: on the tree holding the
    single value 5, [insert(5)] never leaves its descent loop, whatever the
    number of iterations granted. *)
Theorem insert_duplicate_never_returns :
  forall fuel, insert fuel 5 (singleton_tree 5 InOrder) = OutOfFuel.
Proof.
  intro fuel. apply insert_diverges. reflexivity.
Qed.

(** C3.  The token order of [print] against the usual traversal orders: on
    the scenario tree the mode InOrder prints the pre-order sequence and the
    mode PreOrder prints the in-order sequence; only PostOrder prints its own
    sequence.  Every token is preceded by one space. *)
Theorem print_order_scenario :
  print (mkTree scenario_root InOrder) = Ret " 5 3 1 4 8 7 9"%string /\
  render (canonical InOrder scenario_root) = " 1 3 4 5 7 8 9"%string /\
  print (mkTree scenario_root PreOrder) = Ret " 1 3 4 5 7 8 9"%string /\
  render (canonical PreOrder scenario_root) = " 5 3 1 4 8 7 9"%string /\
  print (mkTree scenario_root PostOrder) = Ret (render (canonical PostOrder scenario_root)).
Proof. repeat split; reflexivity. Qed.

(** C4.  Copy assignment: with the tree holding 1 at address 0 and the tree
    holding 2 at address 1, the assignment of the second to the first builds
    the copy as a temporary and returns it, and leaves every object, the
    target included, as it was: the in-order sequence of the target is still
    1, not 2. *)
Theorem copy_assign_leaves_target :
  let mem := [singleton_tree 1 InOrder; singleton_tree 2 PostOrder] in
  copy_assign 3 mem 0 1 = Ret (mem, singleton_tree 2 PostOrder) /\
  option_map inorder (nth_error mem 0) = Some [1] /\
  option_map inorder (nth_error mem 1) = Some [2].
Proof. repeat split; reflexivity. Qed.

(** C5.  The in-order traversal of a tree built by [insert] calls: on the
    tree built by inserting 5, 3, 8, 1, 4, 7, 9 into the empty tree,
    [recursiveInOrder], which [print] calls under the mode InOrder, emits the
    node before its subtrees and yields 5 3 1 4 8 7 9, which is not
    non-decreasing; the vector that [makeInOrderVector] collects from the same
    tree is 1 3 4 5 7 8 9. *)
Theorem recursiveInOrder_not_sorted_scenario :
  built_by_inserts scenario /\
  recursiveInOrder (root scenario) = render [5; 3; 1; 4; 8; 7; 9] /\
  print scenario = Ret " 5 3 1 4 8 7 9"%string /\
  ~ Sorted Z.le [5; 3; 1; 4; 8; 7; 9] /\
  inorder scenario = [1; 3; 4; 5; 7; 8; 9].
Proof.
  split.
  { apply (built_insert_all 7 [5; 3; 8; 1; 4; 7; 9] empty_tree).
    - exact built_empty.
    - reflexivity. }
  split; [reflexivity|]. split; [reflexivity|]. split; [|reflexivity].
  intro S. inversion S as [|? ? _ H]; subst.
  inversion H as [|? ? Hle]; subst. lia.
Qed.

(** The vector that [makeInOrderVector] collects from a tree built by
    [insert] calls is non-decreasing, and it is the left-node-right sequence. *)
Lemma inorder_sorted_after_inserts (t : BinaryTree) :
  built_by_inserts t ->
  Sorted Z.le (inorder t) /\ inorder t = canonical InOrder (root t).
Proof.
  intro B. split.
  - apply StronglySorted_Sorted, StronglySorted_lt_le.
    apply (bst_sorted (root t)). now apply built_bst.
  - symmetry. apply inorder_seq_seq_of.
Qed.

(** C6.  Distinct values inserted into the empty tree: every [insert]
    returns (fuel for as many iterations as there are values suffices),
    [contains] is true for every inserted value and false for every other
    value; on the empty tree [contains] is false. *)
Theorem contains_after_distinct_inserts (vals : list Z) (fuel : nat) :
  NoDup vals -> (List.length vals <= fuel)%nat ->
  (exists t,
     insert_all fuel vals empty_tree = Ret t /\
     (forall v, In v vals -> contains t v = true) /\
     (forall v, ~ In v vals -> contains t v = false)) /\
  (forall v, contains empty_tree v = false).
Proof.
  intros ND F. split; [|reflexivity].
  destruct (insert_all_distinct vals empty_tree fuel) as (t & Hr & Bt & _ & Ht); auto.
  - exact I.
  - exists t. split; [exact Hr|]. split; intros v Hv; rewrite contains_unfold.
    + apply contains_loop_In; auto. apply Ht. now left.
    + destruct (contains_loop (root t) v) eqn:C; auto.
      apply contains_loop_In in C; auto. apply Ht in C.
      destruct C as [C|C]; [contradiction | destruct C].
Qed.

Lemma contains_after_distinct_inserts_witness :
  (NoDup [5; 3; 8; 1; 4; 7; 9] /\ (List.length [5; 3; 8; 1; 4; 7; 9] <= 7)%nat) /\
  (exists t,
     insert_all 7 [5; 3; 8; 1; 4; 7; 9] empty_tree = Ret t /\
     (forall v, In v [5; 3; 8; 1; 4; 7; 9] -> contains t v = true) /\
     (forall v, ~ In v [5; 3; 8; 1; 4; 7; 9] -> contains t v = false)) /\
  (forall v, contains empty_tree v = false).
Proof.
  assert (ND : NoDup [5; 3; 8; 1; 4; 7; 9]).
  { repeat (constructor; [cbn [In]; lia|]). constructor. }
  assert (F : (List.length [5; 3; 8; 1; 4; 7; 9] <= 7)%nat) by (cbn [List.length]; lia).
  split; [split; [exact ND | exact F]|].
  exact (contains_after_distinct_inserts [5; 3; 8; 1; 4; 7; 9] 7 ND F).
Defined.

(** C7.  [getMin] and [getMax] throw [EmptyTreeException] exactly when the
    root is null; on every other tree [getMin] returns the first and [getMax]
    the last element of the in-order sequence. *)
Theorem getMin_getMax_inorder (t : BinaryTree) :
  (getMin t = Throw EmptyTreeException <-> root t = nullptr) /\
  (getMax t = Throw EmptyTreeException <-> root t = nullptr) /\
  (root t = nullptr \/
   exists lo hi rest front,
     getMin t = Ret lo /\ inorder t = lo :: rest /\
     getMax t = Ret hi /\ inorder t = front ++ [hi]).
Proof.
  unfold getMin, getMax, inorder. destruct (root t) as [|v l r].
  - repeat split; auto.
  - destruct (leftmost_head v l r) as (lo & rest & Hl & Hs).
    destruct (rightmost_last v l r) as (hi & front & Hr & Hf).
    fold (seq_of (node v l r)).
    repeat split; try (rewrite ?Hl, ?Hr; discriminate).
    right. exists lo, hi, rest, front. auto.
Qed.

(** C8.  [balance] on a tree of more than [2^30] elements: on the tree
    holding the [2^30 + 1] values [0 .. 2^30] the bounds [0] and [2^30] fit
    the [int] parameters of [makeNode], but on the rightmost range
    [2^30..2^30] the sum [low + high] passes the largest [int], the middle
    index is negative and the vector is read out of range: [balance] returns
    no tree, whatever the fuel. *)
Theorem balance_oversized_fails :
  Z.of_nat (List.length (inorder oversized)) = 2 ^ 30 + 1 /\
  ~ (exists fuel t', balance fuel oversized = Ret t').
Proof.
  split; [exact length_inorder_oversized|].
  intros (fuel & t' & H). revert H. apply balance_overflow.
  rewrite length_inorder_oversized. split; [reflexivity | discriminate].
Qed.

(** C9.  For every tree and every value that is not stored in it,
    [deleteElement] returns false and the tree, hence its in-order sequence,
    is the one before the call. *)
Theorem deleteElement_absent (t : BinaryTree) (val : Z) :
  ~ In val (inorder t) ->
  exists t',
    deleteElement t val = Ret (false, t') /\ t' = t /\ inorder t' = inorder t.
Proof.
  intro H. exists t. split; auto.
  unfold deleteElement. destruct t as [rt o]. unfold inorder in H. cbn [root order] in *.
  destruct rt as [|v l r]; [reflexivity|].
  rewrite recursiveDelete_absent by exact H. reflexivity.
Qed.

Lemma deleteElement_absent_witness :
  ~ In 6 (inorder scenario) /\
  exists t',
    deleteElement scenario 6 = Ret (false, t') /\ t' = scenario /\
    inorder t' = inorder scenario.
Proof.
  assert (H : ~ In 6 (inorder scenario)).
  { vm_compute. intros [H|[H|[H|[H|[H|[H|[H|[]]]]]]]]; discriminate H. }
  split; [exact H | exact (deleteElement_absent scenario 6 H)].
Defined.

(** C10.  [balance] on an empty tree: [v.size()-1] wraps around to the
    largest [size_t], its conversion to [int] is [-1], [makeNode] returns a
    null pointer at once, and the tree is empty afterwards.  No element of the
    vector is read: any read of the empty vector would be out of range. *)
Theorem balance_empty :
  size_t_wrap (Z.of_nat (List.length (@nil Z)) - 1) = 2 ^ 64 - 1 /\
  balance_high [] = -1 /\
  (forall fuel, makeNode (S fuel) 0 (balance_high []) [] = Ret nullptr) /\
  (forall fuel o, balance (S fuel) (mkTree nullptr o) = Ret (mkTree nullptr o)) /\
  (forall i, vector_at [] i = Fault).
Proof.
  repeat split; try reflexivity.
  intro i. unfold vector_at. cbv zeta. cbn [List.length Z.of_nat].
  destruct (size_t_wrap i <? 0) eqn:E; [|reflexivity].
  unfold size_t_wrap in E. apply Z.ltb_lt in E.
  pose proof (Z.mod_pos_bound i (2 ^ 64)). lia.
Qed.

(** * Further properties of the operations *)

(** ** Non-decreasing sequences *)

Lemma sorted_le_app_cons (l1 l2 : list Z) (v : Z) :
  StronglySorted Z.le (l1 ++ v :: l2) <->
  StronglySorted Z.le l1 /\ StronglySorted Z.le l2 /\
  Forall (fun x => x <= v) l1 /\ Forall (fun x => v <= x) l2.
Proof.
  induction l1 as [|a l1 IH]; cbn [app].
  - split.
    + intro H. inversion H; subst. repeat split; auto; constructor.
    + intros (_ & S2 & _ & F2). constructor; auto.
  - split.
    + intro H. inversion H as [|? ? S F]; subst.
      apply IH in S. destruct S as (S1 & S2 & F1 & F2).
      apply Forall_app in F. destruct F as [Fa Fv].
      inversion Fv; subst.
      repeat split; auto; constructor; auto.
    + intros (S1 & S2 & F1 & F2).
      inversion S1 as [|? ? S1' Fa]; subst. inversion F1 as [|? ? Hav F1']; subst.
      constructor.
      * apply IH. repeat split; auto.
      * apply Forall_app. split; auto. constructor; auto.
        eapply Forall_impl; [|exact F2]. cbv beta. intros; lia.
Qed.

Lemma sorted_le_strong (l : list Z) : Sorted Z.le l <-> StronglySorted Z.le l.
Proof.
  split.
  - apply Sorted_StronglySorted. intros x y z. apply Z.le_trans.
  - apply StronglySorted_Sorted.
Qed.

Lemma sorted_lt_strong (l : list Z) : Sorted Z.lt l <-> StronglySorted Z.lt l.
Proof.
  split.
  - apply Sorted_StronglySorted. intros x y z. apply Z.lt_trans.
  - apply StronglySorted_Sorted.
Qed.

Lemma sorted_le_head (x : Z) (rest : list Z) :
  StronglySorted Z.le (x :: rest) -> Forall (fun y => x <= y) (x :: rest).
Proof.
  intro H. inversion H; subst. constructor; [lia | assumption].
Qed.

(** ** deleteElement on every tree *)

Lemma removeNode_child (v : Z) (l r : NodePtr) :
  removeNode (node v l r) = Ret (if is_null l then r else l).
Proof. cbn [removeNode]. now destruct (is_null l). Qed.

(** The flag of [recursiveDelete] is the answer of the search loop of
    [contains], and the call always returns. *)
Lemma recursiveDelete_flag (val : Z) (n : NodePtr) :
  exists n', recursiveDelete n val = Ret (contains_loop n val, n').
Proof.
  induction n as [|v l IHl r IHr]; cbn [recursiveDelete contains_loop].
  - now exists nullptr.
  - destruct (v =? val) eqn:E.
    + destruct (negb (is_null l) && negb (is_null r)) eqn:B.
      * destruct r as [|rv rl rr]; [now rewrite andb_false_r in B|].
        destruct (leftmost_head rv rl rr) as (m & rest & Hm & _).
        rewrite Hm, removeNode_child. cbn [bind]. eauto.
      * rewrite removeNode_child. cbn [bind]. eauto.
    + destruct (val <? v) eqn:L.
      * replace (v >? val) with true by lia.
        destruct IHl as [l' ->]. cbn [bind fst snd]. eauto.
      * replace (v >? val) with false by lia.
        destruct IHr as [r' ->]. cbn [bind fst snd]. eauto.
Qed.

(** What a returning [recursiveDelete] does to the in-order sequence: it
    stays non-decreasing if it was, no value appears that was not stored, a
    successful call makes it shorter and an unsuccessful one changes nothing. *)
Lemma recursiveDelete_effect (val : Z) (n : NodePtr) :
  forall found n',
    recursiveDelete n val = Ret (found, n') ->
    (StronglySorted Z.le (seq_of n) -> StronglySorted Z.le (seq_of n')) /\
    incl (seq_of n') (seq_of n) /\
    (found = true -> (List.length (seq_of n') < List.length (seq_of n))%nat) /\
    (found = false -> n' = n).
Proof.
  induction n as [|v l IHl r IHr]; intros found n' H; cbn [recursiveDelete] in H.
  - injection H as <- <-. repeat split; auto. apply incl_refl. discriminate.
  - destruct (v =? val) eqn:E.
    + destruct (negb (is_null l) && negb (is_null r)) eqn:B.
      * destruct r as [|rv rl rr]; [now rewrite andb_false_r in B|].
        destruct (leftmost_head rv rl rr) as (m & rest & Hm & Hs).
        rewrite Hm, removeNode_child in H. cbn [bind] in H. injection H as <- <-.
        set (r' := if is_null rl then rr else rl).
        assert (Hin : incl (seq_of r') (seq_of (node rv rl rr))).
        { unfold r'. rewrite seq_of_node. intros x Hx. apply in_app_iff.
          destruct (is_null rl); [right; now right | now left]. }
        assert (Hlen : (List.length (seq_of r') < List.length (seq_of (node rv rl rr)))%nat).
        { unfold r'. rewrite seq_of_node, length_app. cbn [List.length].
          destruct (is_null rl); lia. }
        assert (Hsub : StronglySorted Z.le (seq_of (node rv rl rr)) ->
                       StronglySorted Z.le (seq_of r')).
        { unfold r'. rewrite seq_of_node. intro S. apply sorted_le_app_cons in S.
          destruct (is_null rl); tauto. }
        repeat split.
        -- rewrite !seq_of_node. fold (seq_of (node rv rl rr)).
           rewrite <- (seq_of_node rv rl rr).
           intro S. apply sorted_le_app_cons in S. destruct S as (S1 & S2 & F1 & F2).
           apply sorted_le_app_cons.
           assert (Fm : Forall (fun y => m <= y) (seq_of (node rv rl rr))).
           { rewrite Hs in S2 |- *. now apply sorted_le_head. }
           assert (Hvm : v <= m).
           { rewrite Forall_forall in F2. apply F2. rewrite Hs. now left. }
           repeat split; auto.
           ++ eapply Forall_impl; [|exact F1]. cbv beta. intros; lia.
           ++ rewrite Forall_forall in Fm |- *. intros x Hx. apply Fm, Hin, Hx.
        -- rewrite !seq_of_node. fold (seq_of (node rv rl rr)).
           rewrite <- (seq_of_node rv rl rr).
           intros x Hx. apply in_app_iff in Hx. apply in_app_iff.
           destruct Hx as [Hx|[<-|Hx]]; auto.
           ++ right. right. rewrite Hs. now left.
           ++ right. right. now apply Hin.
        -- intros _. rewrite !seq_of_node, !length_app. cbn [List.length].
           fold (seq_of (node rv rl rr)). rewrite <- (seq_of_node rv rl rr). lia.
        -- discriminate.
      * rewrite removeNode_child in H. cbn [bind] in H. injection H as <- <-.
        rewrite seq_of_node. repeat split.
        -- intro S. apply sorted_le_app_cons in S. destruct (is_null l); tauto.
        -- intros x Hx. apply in_app_iff.
           destruct (is_null l); [right; now right | now left].
        -- intros _. rewrite length_app. cbn [List.length]. destruct (is_null l); lia.
        -- discriminate.
    + destruct (val <? v) eqn:L.
      * destruct (recursiveDelete l val) as [[b l']| | |] eqn:R; cbn [bind fst snd] in H;
          try discriminate.
        injection H as <- <-.
        destruct (IHl b l' eq_refl) as (S & I & Ln & Eq).
        rewrite !seq_of_node. repeat split.
        -- intro H. apply sorted_le_app_cons in H. destruct H as (S1 & S2 & F1 & F2).
           apply sorted_le_app_cons. repeat split; auto.
           rewrite Forall_forall in F1 |- *. intros x Hx. apply F1, I, Hx.
        -- intros x Hx. apply in_app_iff in Hx. apply in_app_iff.
           destruct Hx as [Hx|Hx]; auto.
        -- intro Hb. rewrite !length_app. specialize (Ln Hb). lia.
        -- intro Hb. now rewrite (Eq Hb).
      * destruct (recursiveDelete r val) as [[b r']| | |] eqn:R; cbn [bind fst snd] in H;
          try discriminate.
        injection H as <- <-.
        destruct (IHr b r' eq_refl) as (S & I & Ln & Eq).
        rewrite !seq_of_node. repeat split.
        -- intro H. apply sorted_le_app_cons in H. destruct H as (S1 & S2 & F1 & F2).
           apply sorted_le_app_cons. repeat split; auto.
           rewrite Forall_forall in F2 |- *. intros x Hx. apply F2, I, Hx.
        -- intros x Hx. apply in_app_iff in Hx. apply in_app_iff.
           destruct Hx as [Hx|[Hx|Hx]]; [now left | right; now left |].
           right. right. now apply I.
        -- intro Hb. rewrite !length_app. cbn [List.length]. specialize (Ln Hb). lia.
        -- intro Hb. now rewrite (Eq Hb).
Qed.

(** ** contains on a tree with a non-decreasing in-order sequence *)

Lemma contains_loop_sorted (x : Z) (n : NodePtr) :
  StronglySorted Z.le (seq_of n) -> (contains_loop n x = true <-> In x (seq_of n)).
Proof.
  induction n as [|v l IHl r IHr]; cbn [contains_loop].
  - intros _. split; [discriminate | intros []].
  - rewrite seq_of_node. intro S. apply sorted_le_app_cons in S.
    destruct S as (S1 & S2 & F1 & F2). rewrite Forall_forall in F1, F2.
    rewrite in_app_iff. cbn [In].
    destruct (v =? x) eqn:E.
    + assert (v = x) by lia. tauto.
    + destruct (v >? x) eqn:G.
      * rewrite (IHl S1). split; [tauto|].
        intros [H|[H|H]]; auto; [lia | apply F2 in H; lia].
      * rewrite (IHr S2). split; [tauto|].
        intros [H|[H|H]]; auto; [apply F1 in H; lia | lia].
Qed.

(** ** Deletion at a node that can be spliced out *)

Lemma recursiveDelete_splice (val : Z) (n : NodePtr) :
  spliceable (delete_target n val) = true ->
  exists n' pre post,
    recursiveDelete n val = Ret (true, n') /\
    seq_of n = pre ++ val :: post /\ seq_of n' = pre ++ post.
Proof.
  induction n as [|v l IHl r IHr]; cbn [delete_target recursiveDelete]; intro H.
  - discriminate.
  - destruct (v =? val) eqn:E.
    + assert (v = val) by lia. subst v. cbn [spliceable] in H.
      destruct l as [|lv ll lr].
      * cbn [is_null negb andb]. rewrite removeNode_child. cbn [bind is_null].
        exists r, [], (seq_of r). rewrite seq_of_node. auto.
      * destruct r as [|rv rl rr].
        -- cbn [is_null negb andb]. rewrite removeNode_child. cbn [bind is_null].
           exists (node lv ll lr), (seq_of (node lv ll lr)), [].
           rewrite seq_of_node, seq_of_null, app_nil_r. auto.
        -- cbn [is_null orb child] in H. destruct rl; [|discriminate].
           cbn [is_null negb andb leftmost removeNode bind].
           exists (node rv (node lv ll lr) rr), (seq_of (node lv ll lr)), (rv :: seq_of rr).
           split; [reflexivity|].
           rewrite (seq_of_node val), (seq_of_node rv nullptr), (seq_of_node rv (node lv ll lr)).
           rewrite seq_of_null. auto.
    + destruct (val <? v) eqn:L.
      * destruct (IHl H) as (l' & pre & post & -> & Hs & Hs').
        cbn [bind fst snd]. exists (node v l' r), pre, (post ++ v :: seq_of r).
        split; [reflexivity|]. rewrite !seq_of_node, Hs, Hs', <- !app_assoc. auto.
      * destruct (IHr H) as (r' & pre & post & -> & Hs & Hs').
        cbn [bind fst snd]. exists (node v l r'), (seq_of l ++ v :: pre), post.
        split; [reflexivity|]. rewrite !seq_of_node, Hs, Hs', <- !app_assoc. auto.
Qed.

Lemma sorted_lt_remove (pre post : list Z) (v : Z) :
  StronglySorted Z.lt (pre ++ v :: post) ->
  StronglySorted Z.lt (pre ++ post) /\ ~ In v (pre ++ post).
Proof.
  induction pre as [|a pre IH]; cbn [app]; intro S.
  - inversion S as [|? ? S' F]; subst. split; auto.
    rewrite Forall_forall in F. intro H. apply F in H. lia.
  - inversion S as [|? ? S' F]; subst. destruct (IH S') as [S2 N].
    apply Forall_app in F. destruct F as [Fp Fv]. inversion Fv; subst.
    split.
    + constructor; auto. apply Forall_app. auto.
    + intros [->|H]; [lia | auto].
Qed.

(** ** insert followed by contains and deleteElement *)

Lemma contains_ins_same (val : Z) (n : NodePtr) :
  contains_loop n val = false -> contains_loop (ins val n) val = true.
Proof.
  induction n as [|v l IHl r IHr]; cbn [contains_loop ins]; intro C.
  - now rewrite Z.eqb_refl.
  - destruct (v =? val) eqn:E; [discriminate|].
    destruct (val >? v) eqn:G.
    + replace (v >? val) with false in * by lia.
      cbn [contains_loop]. rewrite E. replace (v >? val) with false by lia. auto.
    + replace (val <? v) with true by lia. replace (v >? val) with true in * by lia.
      cbn [contains_loop]. rewrite E. replace (v >? val) with true by lia. auto.
Qed.

Lemma contains_ins_other (val x : Z) (n : NodePtr) :
  x <> val -> contains_loop (ins val n) x = contains_loop n x.
Proof.
  intro Hx. induction n as [|v l IHl r IHr]; cbn [contains_loop ins].
  - replace (val =? x) with false by lia. now destruct (val >? x).
  - destruct (val >? v) eqn:G; [|destruct (val <? v) eqn:L]; cbn [contains_loop]; auto.
    + destruct (v =? x); auto. destruct (v >? x); auto.
    + destruct (v =? x); auto. destruct (v >? x); auto.
Qed.

Lemma seq_of_ins (val : Z) (n : NodePtr) :
  contains_loop n val = false ->
  exists pre post, seq_of n = pre ++ post /\ seq_of (ins val n) = pre ++ val :: post.
Proof.
  induction n as [|v l IHl r IHr]; cbn [contains_loop ins]; intro C.
  - exists [], []. auto.
  - destruct (v =? val) eqn:E; [discriminate|].
    destruct (val >? v) eqn:G.
    + replace (v >? val) with false in C by lia.
      destruct (IHr C) as (pre & post & Hs & Hs').
      exists (seq_of l ++ v :: pre), post.
      rewrite !seq_of_node, Hs, Hs', <- !app_assoc. auto.
    + replace (val <? v) with true by lia. replace (v >? val) with true in C by lia.
      destruct (IHl C) as (pre & post & Hs & Hs').
      exists pre, (post ++ v :: seq_of r).
      rewrite !seq_of_node, Hs, Hs', <- !app_assoc. auto.
Qed.

Lemma recursiveDelete_ins (val : Z) (n : NodePtr) :
  contains_loop n val = false -> recursiveDelete (ins val n) val = Ret (true, n).
Proof.
  induction n as [|v l IHl r IHr]; cbn [contains_loop ins]; intro C.
  - cbn [recursiveDelete]. now rewrite Z.eqb_refl.
  - destruct (v =? val) eqn:E; [discriminate|].
    destruct (val >? v) eqn:G.
    + replace (v >? val) with false in C by lia.
      cbn [recursiveDelete]. rewrite E. replace (val <? v) with false by lia.
      now rewrite (IHr C).
    + replace (val <? v) with true by lia. replace (v >? val) with true in C by lia.
      cbn [recursiveDelete]. rewrite E. replace (val <? v) with true by lia.
      now rewrite (IHl C).
Qed.

Lemma sorted_le_ins (val : Z) (n : NodePtr) :
  StronglySorted Z.le (seq_of n) -> StronglySorted Z.le (seq_of (ins val n)).
Proof.
  induction n as [|v l IHl r IHr]; cbn [ins]; intro S.
  - rewrite seq_of_node, seq_of_null. repeat constructor.
  - destruct (val >? v) eqn:G; [|destruct (val <? v) eqn:L]; auto;
      rewrite seq_of_node in *; apply sorted_le_app_cons in S;
      destruct S as (S1 & S2 & F1 & F2); apply sorted_le_app_cons; repeat split; auto.
    + apply Forall_ins; auto. lia.
    + apply Forall_ins; auto. lia.
Qed.

(** ** Heights *)

Lemma size_lt_pow_depth (n : NodePtr) :
  Z.of_nat (List.length (seq_of n)) < 2 ^ Z.of_nat (depth n).
Proof.
  induction n as [|v l IHl r IHr]; cbn [depth].
  - rewrite seq_of_null. cbn. lia.
  - rewrite seq_of_node, length_app. cbn [List.length].
    rewrite Nat2Z.inj_succ, Z.pow_succ_r by lia.
    assert (Hl : 2 ^ Z.of_nat (depth l) <= 2 ^ Z.of_nat (Nat.max (depth l) (depth r))).
    { apply Z.pow_le_mono_r; lia. }
    assert (Hr : 2 ^ Z.of_nat (depth r) <= 2 ^ Z.of_nat (Nat.max (depth l) (depth r))).
    { apply Z.pow_le_mono_r; lia. }
    lia.
Qed.

Lemma depth_log_lower (n : NodePtr) :
  Z.log2_up (Z.of_nat (List.length (seq_of n)) + 1) <= Z.of_nat (depth n).
Proof.
  apply Z.log2_up_le_pow2; [lia|].
  pose proof (size_lt_pow_depth n). lia.
Qed.

(** The rebuild of a range has the least depth a tree of that many nodes can
    have. *)
Lemma makeNode_exact (fuel : nat) (v : list Z) (low high : Z) :
  0 <= low -> low <= high + 1 -> high < Z.of_nat (List.length v) ->
  Z.of_nat (List.length v) <= 2 ^ 30 ->
  high - low + 1 < Z.of_nat fuel ->
  exists t,
    makeNode fuel low high v = Ret t /\
    seq_of t = firstn (Z.to_nat (high - low + 1)) (skipn (Z.to_nat low) v) /\
    Z.of_nat (List.length (seq_of t)) = high - low + 1 /\
    Z.of_nat (depth t) = Z.log2_up (high - low + 2).
Proof.
  intros Hlow Hle Hhigh Hlen Hfuel.
  destruct (makeNode_slice fuel v low high) as (t & Ht & St & Dt); auto.
  assert (Ln : Z.of_nat (List.length (seq_of t)) = high - low + 1).
  { rewrite St, length_firstn, length_skipn. lia. }
  exists t. repeat split; auto.
  apply Z.le_antisymm.
  - assert (Hlog : 0 <= Z.log2_up (high - low + 2)) by apply Z.log2_up_nonneg.
    assert (Hpow : high - low + 2 <= 2 ^ Z.log2_up (high - low + 2)).
    { apply Z.log2_log2_up_spec. lia. }
    specialize (Dt (Z.to_nat (Z.log2_up (high - low + 2)))).
    rewrite Z2Nat.id in Dt by lia.
    assert (depth t <= Z.to_nat (Z.log2_up (high - low + 2)))%nat by (apply Dt; lia).
    lia.
  - pose proof (depth_log_lower t) as H. rewrite Ln in H.
    now replace (high - low + 1 + 1) with (high - low + 2) in H by lia.
Qed.

Lemma vector_at_nth (v : list Z) (i x : Z) :
  0 <= i < 2 ^ 64 -> vector_at v i = Ret x -> nth_error v (Z.to_nat i) = Some x.
Proof.
  intros Hi. unfold vector_at. cbv zeta. rewrite size_t_wrap_small by lia.
  destruct (i <? Z.of_nat (List.length v)); [|discriminate].
  destruct (nth_error v (Z.to_nat i)); [|discriminate].
  now intros [= ->].
Qed.

(** The node built for a non-empty range: the value at the lower middle
    index on top of the rebuilds of the two halves. *)
Lemma makeNode_node (f : nat) (v : list Z) (low high : Z) :
  0 <= low <= high -> high < Z.of_nat (List.length v) ->
  Z.of_nat (List.length v) <= 2 ^ 30 ->
  high - low + 1 <= Z.of_nat f ->
  exists x tl tr,
    makeNode (S f) low high v = Ret (node x tl tr) /\
    nth_error v (Z.to_nat ((low + high) / 2)) = Some x /\
    Z.of_nat (List.length (seq_of tl)) = (low + high) / 2 - low /\
    Z.of_nat (depth tl) = Z.log2_up ((low + high) / 2 - low + 1) /\
    Z.of_nat (depth tr) = Z.log2_up (high - (low + high) / 2 + 1).
Proof.
  intros Hlow Hhigh Hlen Hf. cbn [makeNode].
  replace (low >? high) with false by lia.
  rewrite (int_wrap_small (low + high)) by lia.
  rewrite Z.quot_div_nonneg by lia.
  assert (Hm : low <= (low + high) / 2 <= high).
  { Z.to_euclidean_division_equations. lia. }
  set (mid := (low + high) / 2) in *.
  destruct (vector_at_in_range v mid) as [x Hx]; try lia.
  rewrite !int_wrap_small by lia.
  destruct (makeNode_exact f v low (mid - 1)) as (tl & Hl & _ & Ll & Dl); try lia.
  destruct (makeNode_exact f v (mid + 1) high) as (tr & Htr & _ & _ & Dr); try lia.
  exists x, tl, tr. rewrite Hx, Hl, Htr. cbn [bind].
  split; [reflexivity|]. split; [apply vector_at_nth; [lia | exact Hx]|].
  split; [lia|]. split.
  - rewrite Dl. f_equal. lia.
  - rewrite Dr. f_equal. lia.
Qed.

(** [balance] within the range of [int]: the tree it returns. *)
Lemma balance_returns (t : BinaryTree) (fuel : nat) :
  Z.of_nat (List.length (inorder t)) <= 2 ^ 30 ->
  (List.length (inorder t) < fuel)%nat ->
  exists r,
    balance fuel t = Ret (mkTree r (order t)) /\
    seq_of r = inorder t /\
    Z.of_nat (depth r) = Z.log2_up (Z.of_nat (List.length (inorder t)) + 1).
Proof.
  intros Hn Hfuel. unfold balance. cbv zeta.
  unfold inorder in *. fold (seq_of (root t)) in *.
  set (v := seq_of (root t)) in *.
  rewrite balance_high_small by lia.
  destruct (makeNode_exact fuel v 0 (Z.of_nat (List.length v) - 1))
    as (r & Hr & Sr & _ & Dr); try lia.
  rewrite Hr. cbn [bind]. exists r. split; [reflexivity|]. split.
  - rewrite Sr. replace (Z.of_nat (List.length v) - 1 - 0 + 1)
      with (Z.of_nat (List.length v)) by lia.
    rewrite Nat2Z.id. cbn [Z.to_nat skipn]. apply firstn_all.
  - rewrite Dr. f_equal. lia.
Qed.

(** Whenever [balance] returns within that range, it is that tree. *)
Lemma balance_ret_inv (t t' : BinaryTree) (fuel : nat) :
  Z.of_nat (List.length (inorder t)) <= 2 ^ 30 ->
  balance fuel t = Ret t' ->
  inorder t' = inorder t /\ order t' = order t /\
  Z.of_nat (depth (root t')) = Z.log2_up (Z.of_nat (List.length (inorder t)) + 1).
Proof.
  intros Hn H.
  destruct (balance_returns t (S (List.length (inorder t) + fuel)) Hn) as (r & Hr & Sr & Dr);
    [lia|].
  assert (E : balance fuel t = Ret (mkTree r (order t)) \/ balance fuel t = OutOfFuel).
  { clear H. revert Hr. unfold balance. cbv zeta.
    generalize (balance_high (makeInOrderVector [] (root t))).
    generalize (makeInOrderVector [] (root t)). intros v high.
    generalize (S (List.length (inorder t) + fuel)). intro big.
    assert (M : forall f g low hi u,
               makeNode f low hi v = Ret u ->
               makeNode g low hi v = Ret u \/ makeNode g low hi v = OutOfFuel).
    { induction f as [|f IHf]; intros g low hi u Hf; [discriminate|].
      destruct g as [|g]; [now right|]. cbn [makeNode] in *.
      destruct (low >? hi); [now left|].
      destruct (vector_at v (Z.quot (int_wrap (low + hi)) 2)) as [x| | |];
        cbn [bind] in *; try discriminate.
      destruct (makeNode f low (int_wrap (Z.quot (int_wrap (low + hi)) 2 - 1)) v)
        as [l| | |] eqn:El; cbn [bind] in Hf; try discriminate.
      destruct (IHf g _ _ _ El) as [-> | ->]; cbn [bind]; [|now right].
      destruct (makeNode f (int_wrap (Z.quot (int_wrap (low + hi)) 2 + 1)) hi v)
        as [r0| | |] eqn:Er; cbn [bind] in Hf; try discriminate.
      destruct (IHf g _ _ _ Er) as [-> | ->]; cbn [bind]; [|now right].
      now left. }
    intro Hbig.
    destruct (makeNode big 0 high v) as [u| | |] eqn:Eu; cbn [bind] in Hbig;
      try discriminate.
    injection Hbig as <-.
    destruct (M big fuel 0 high u Eu) as [-> | ->]; cbn [bind]; auto. }
  destruct E as [E|E]; rewrite E in H; [|discriminate].
  injection H as <-. cbn [root order]. unfold inorder at 1. cbn [root].
  fold (seq_of r). auto.
Qed.

(** ** Strictly increasing sequences and the search-tree invariant *)

Lemma sorted_lt_app_cons_inv (l1 l2 : list Z) (v : Z) :
  StronglySorted Z.lt (l1 ++ v :: l2) ->
  StronglySorted Z.lt l1 /\ StronglySorted Z.lt l2 /\
  Forall (fun x => x < v) l1 /\ Forall (fun x => v < x) l2.
Proof.
  induction l1 as [|a l1 IH]; cbn [app]; intro H.
  - inversion H; subst. repeat split; auto; constructor.
  - inversion H as [|? ? S F]; subst.
    apply IH in S. destruct S as (S1 & S2 & F1 & F2).
    apply Forall_app in F. destruct F as [Fa Fv]. inversion Fv; subst.
    repeat split; auto; constructor; auto.
Qed.

Lemma sorted_lt_bst (n : NodePtr) : StronglySorted Z.lt (seq_of n) -> bst n.
Proof.
  induction n as [|v l IHl r IHr]; cbn [bst]; [auto|].
  rewrite seq_of_node. intro S. apply sorted_lt_app_cons_inv in S.
  destruct S as (S1 & S2 & F1 & F2). auto.
Qed.

(** ** Least and greatest value *)

Lemma sorted_le_bounds (lo hi : Z) (rest front l : list Z) :
  StronglySorted Z.le l -> l = lo :: rest -> l = front ++ [hi] ->
  forall x, In x l -> lo <= x <= hi.
Proof.
  intros S E1 E2 x Hx. split.
  - rewrite E1 in S, Hx. apply sorted_le_head in S.
    rewrite Forall_forall in S. now apply S.
  - rewrite E2 in S, Hx. apply sorted_le_app_cons in S.
    destruct S as (_ & _ & F & _). rewrite Forall_forall in F.
    apply in_app_iff in Hx. destruct Hx as [Hx|[<-|[]]]; [now apply F | lia].
Qed.

(** ** The tokens of print *)

Lemma preorder_seq_perm (n : NodePtr) : Permutation (preorder_seq n) (seq_of n).
Proof.
  induction n as [|v l IHl r IHr]; cbn [preorder_seq].
  - constructor.
  - rewrite seq_of_node. apply Permutation_cons_app. now apply Permutation_app.
Qed.

Lemma postorder_seq_perm (n : NodePtr) : Permutation (postorder_seq n) (seq_of n).
Proof.
  induction n as [|v l IHl r IHr]; cbn [postorder_seq].
  - constructor.
  - rewrite seq_of_node. apply Permutation_app; auto.
    rewrite <- Permutation_cons_append. now constructor.
Qed.

(** ** Ascending insertions *)

Lemma contains_ascending (count : nat) :
  forall from x, from + Z.of_nat count <= x -> contains_loop (ascending count from) x = false.
Proof.
  induction count as [|count IH]; intros from x H; cbn [ascending contains_loop].
  - reflexivity.
  - replace (from =? x) with false by lia. replace (from >? x) with false by lia.
    apply IH. lia.
Qed.

Lemma ins_ascending (count : nat) :
  forall from, ins (from + Z.of_nat count) (ascending count from) = ascending (S count) from.
Proof.
  induction count as [|count IH]; intro from.
  - cbn [ascending ins Z.of_nat]. now rewrite Z.add_0_r.
  - cbn [ascending ins] in *. rewrite Nat2Z.inj_succ.
    replace (from + Z.succ (Z.of_nat count) >? from) with true
      by (symmetry; apply Z.gtb_lt; lia).
    replace (from + Z.succ (Z.of_nat count)) with (from + 1 + Z.of_nat count) by lia.
    now rewrite IH.
Qed.

Lemma depth_ascending (count : nat) : forall from, depth (ascending count from) = count.
Proof.
  induction count as [|count IH]; intro from; cbn [ascending depth]; [reflexivity|].
  rewrite IH. reflexivity.
Qed.

Lemma seq_of_ascending (count : nat) :
  forall from, seq_of (ascending count from) = ascending_values count from.
Proof.
  induction count as [|count IH]; intro from; cbn [ascending ascending_values].
  - reflexivity.
  - rewrite seq_of_node, seq_of_null, IH. reflexivity.
Qed.

Lemma insert_all_ascending (count : nat) :
  forall done from o fuel,
    (done + count <= fuel)%nat ->
    insert_all fuel (ascending_values count (from + Z.of_nat done))
      (mkTree (ascending done from) o) =
    Ret (mkTree (ascending (done + count) from) o).
Proof.
  induction count as [|count IH]; intros done from o fuel F;
    cbn [ascending_values insert_all].
  - now rewrite Nat.add_0_r.
  - rewrite insert_returns.
    + cbn [bind root order]. rewrite ins_ascending.
      replace (from + Z.of_nat done + 1) with (from + Z.of_nat (S done)) by lia.
      rewrite IH by lia. now rewrite Nat.add_succ_r.
    + rewrite contains_unfold. cbn [root]. apply contains_ascending. lia.
    + cbn [root]. rewrite depth_ascending. lia.
Qed.

(** ** The in-order sequence along the operations *)

Lemma copy_loop_sorted (fuel : nat) :
  forall self curr remaining self',
    copy_loop fuel self curr remaining = Ret self' ->
    StronglySorted Z.le (seq_of (root self)) ->
    StronglySorted Z.le (seq_of (root self')).
Proof.
  induction fuel as [|fuel IH]; intros self curr remaining self' H S; [discriminate|].
  cbn [copy_loop] in H. destruct curr as [|v l r].
  - now injection H as <-.
  - destruct (insert fuel v self) as [s1| | |] eqn:E; cbn [bind] in H; try discriminate.
    apply insert_ret_inv in E. destruct E as [_ ->].
    assert (S1 : StronglySorted Z.le (seq_of (root (mkTree (ins v (root self)) (order self))))).
    { cbn [root]. now apply sorted_le_ins. }
    destruct (negb (is_null l)).
    + eapply IH; eassumption.
    + destruct (if is_null r then remaining else r :: remaining) as [|back rest].
      * now injection H as <-.
      * eapply IH; eassumption.
Qed.

Lemma deleteElement_effect (t t' : BinaryTree) (val : Z) (found : bool) :
  deleteElement t val = Ret (found, t') ->
  recursiveDelete (root t) val = Ret (found, root t') /\ order t' = order t.
Proof.
  unfold deleteElement. destruct t as [rt o]. cbn [root order].
  destruct rt as [|v l r].
  - intros [= <- <-]. auto.
  - destruct (recursiveDelete (node v l r) val) as [[b n']| | |]; cbn [bind fst snd];
      try discriminate.
    intros [= <- <-]. auto.
Qed.

Lemma reachable_strongly_sorted (t : BinaryTree) :
  reachable t -> StronglySorted Z.le (seq_of (root t)).
Proof.
  induction 1 as [|val o|t t' fuel val _ IH E|t t' val found _ IH E|t o _ IH
                  |t t' fuel _ IH Hn E|t t' fuel _ IH E].
  - constructor.
  - cbn [singleton_tree root]. rewrite seq_of_node, seq_of_null. repeat constructor.
  - apply insert_ret_inv in E. destruct E as [_ ->]. cbn [root]. now apply sorted_le_ins.
  - apply deleteElement_effect in E. destruct E as [E _].
    apply recursiveDelete_effect in E. now apply E.
  - exact IH.
  - apply balance_ret_inv in E; auto. destruct E as (E & _).
    unfold inorder in E. fold (seq_of (root t')) (seq_of (root t)) in E. now rewrite E.
  - unfold copy_construct in E.
    destruct (copy_loop fuel (mkTree nullptr InOrder) (root t) []) as [s| | |] eqn:C;
      cbn [bind] in E; try discriminate.
    injection E as <-. cbn [root].
    eapply copy_loop_sorted; [exact C|]. constructor.
Qed.

(** [balance] on a tree that is not empty: the root it builds. *)
Lemma balance_root (t : BinaryTree) (fuel : nat) :
  1 <= Z.of_nat (List.length (inorder t)) <= 2 ^ 30 ->
  (List.length (inorder t) < fuel)%nat ->
  exists x l r,
    balance fuel t = Ret (mkTree (node x l r) (order t)) /\
    nth_error (inorder t) (Z.to_nat ((Z.of_nat (List.length (inorder t)) - 1) / 2)) = Some x /\
    inorder t = seq_of l ++ x :: seq_of r /\
    Z.of_nat (List.length (seq_of l)) = (Z.of_nat (List.length (inorder t)) - 1) / 2 /\
    Z.of_nat (depth l) = Z.log2_up ((Z.of_nat (List.length (inorder t)) - 1) / 2 + 1) /\
    Z.of_nat (depth r) =
      Z.log2_up (Z.of_nat (List.length (inorder t)) - 1
                 - (Z.of_nat (List.length (inorder t)) - 1) / 2 + 1).
Proof.
  intros Hn Hfuel.
  destruct (balance_returns t fuel) as (r0 & Hb & Sr & _); [lia | exact Hfuel |].
  destruct fuel as [|f]; [lia|].
  set (n := Z.of_nat (List.length (inorder t))) in *.
  destruct (makeNode_node f (inorder t) 0 (n - 1)) as (x & tl & tr & Hm & Hx & Ll & Dl & Dr);
    try (fold n; lia).
  assert (E : r0 = node x tl tr).
  { revert Hb. unfold balance. cbv zeta. fold (inorder t).
    rewrite balance_high_small by (fold n; lia). fold n. rewrite Hm. cbn [bind].
    now intros [= ->]. }
  subst r0. rewrite seq_of_node in Sr.
  replace (0 + (n - 1)) with (n - 1) in * by lia.
  exists x, tl, tr. repeat split; auto.
  - rewrite Ll. lia.
  - rewrite Dl. f_equal. lia.
Qed.

Lemma height_bounds (n : NodePtr) :
  Z.of_nat (List.length (seq_of n)) < 2 ^ 64 ->
  Z.log2_up (Z.of_nat (List.length (seq_of n)) + 1) <= recursiveGetHeight n
    <= Z.of_nat (List.length (seq_of n)).
Proof.
  intro H. pose proof (depth_le_size n). pose proof (depth_log_lower n).
  rewrite recursiveGetHeight_depth by lia. lia.
Qed.

Lemma reachable_insert_all (fuel : nat) (vals : list Z) :
  forall t0 t, reachable t0 -> insert_all fuel vals t0 = Ret t -> reachable t.
Proof.
  induction vals as [|v rest IH]; cbn [insert_all]; intros t0 t B H.
  - injection H as <-. exact B.
  - destruct (insert fuel v t0) as [t1| | |] eqn:E; cbn [bind] in H; try discriminate.
    eapply IH; [|exact H]. eapply reach_insert; eassumption.
Qed.

Lemma scenario_sorted_lt : Sorted Z.lt (inorder scenario).
Proof. change (inorder scenario) with [1; 3; 4; 5; 7; 8; 9]. repeat constructor. Qed.

Lemma scenario_sorted_le : Sorted Z.le (inorder scenario).
Proof.
  apply sorted_le_strong, StronglySorted_lt_le, sorted_lt_strong, scenario_sorted_lt.
Qed.

Lemma scenario_reachable : reachable scenario.
Proof.
  apply (reachable_insert_all 7 [5; 3; 8; 1; 4; 7; 9] empty_tree).
  - exact reach_empty.
  - reflexivity.
Qed.

(** * Properties beyond the description *)

(** X1.  [deleteElement] always returns; its flag is the answer [contains]
    gives for the same value on the tree before the call, and the stored mode
    is kept. *)
Theorem deleteElement_flag_is_contains (t : BinaryTree) (val : Z) :
  exists t', deleteElement t val = Ret (contains t val, t') /\ order t' = order t.
Proof.
  unfold deleteElement, contains. destruct t as [rt o]. cbn [root order].
  destruct rt as [|v l r].
  - eexists. split; reflexivity.
  - destruct (recursiveDelete_flag val (node v l r)) as [n' ->].
    cbn [bind fst snd]. eexists. split; reflexivity.
Qed.

(** X2.  When the first node on the search path that holds [val] has at most
    one child, or a right child without a left child, [deleteElement] returns
    true and removes exactly that occurrence of [val] from the in-order
    sequence; this holds on every tree. *)
Theorem deleteElement_splice (t : BinaryTree) (val : Z) :
  spliceable (delete_target (root t) val) = true ->
  exists t' pre post,
    deleteElement t val = Ret (true, t') /\
    inorder t = pre ++ val :: post /\ inorder t' = pre ++ post.
Proof.
  intro H. destruct (recursiveDelete_splice val (root t) H) as (n' & pre & post & R & S & S').
  exists (mkTree n' (order t)), pre, post.
  unfold deleteElement, inorder. cbn [root]. fold (seq_of (root t)) (seq_of n').
  destruct (root t) as [|v l r]; [discriminate|].
  rewrite R. cbn [bind fst snd]. auto.
Qed.

Lemma deleteElement_splice_witness :
  spliceable (delete_target (root scenario) 3) = true /\
  exists t' pre post,
    deleteElement scenario 3 = Ret (true, t') /\
    inorder scenario = pre ++ 3 :: post /\ inorder t' = pre ++ post.
Proof.
  split; [reflexivity | exact (deleteElement_splice scenario 3 eq_refl)].
Defined.

(** X3.  On a tree whose in-order sequence is strictly increasing, such a
    deletion keeps the sequence strictly increasing, makes [contains] false
    for the deleted value and leaves it as it was for every other value. *)
Theorem deleteElement_splice_search_tree (t : BinaryTree) (val : Z) :
  Sorted Z.lt (inorder t) ->
  spliceable (delete_target (root t) val) = true ->
  exists t',
    deleteElement t val = Ret (true, t') /\
    Sorted Z.lt (inorder t') /\
    contains t' val = false /\
    forall x, x <> val -> contains t' x = contains t x.
Proof.
  intros S H. apply sorted_lt_strong in S.
  destruct (recursiveDelete_splice val (root t) H) as (n' & pre & post & R & E & E').
  exists (mkTree n' (order t)).
  unfold inorder in *. fold (seq_of (root t)) in *. cbn [root]. fold (seq_of n').
  assert (S0 := S). rewrite E in S. apply sorted_lt_remove in S. destruct S as [S' N].
  rewrite <- E' in S', N.
  assert (Cn : forall x, contains_loop n' x = true <-> In x (seq_of n')).
  { intro x. apply contains_loop_sorted. now apply StronglySorted_lt_le. }
  assert (Ct : forall x, contains_loop (root t) x = true <-> In x (seq_of (root t))).
  { intro x. apply contains_loop_sorted. now apply StronglySorted_lt_le. }
  split; [|split; [|split]].
  - unfold deleteElement. destruct (root t) as [|v l r]; [discriminate|].
    rewrite R. reflexivity.
  - now apply sorted_lt_strong.
  - rewrite contains_unfold. cbn [root].
    destruct (contains_loop n' val) eqn:C; auto. apply Cn in C. contradiction.
  - intros x Hx. rewrite !contains_unfold. cbn [root].
    destruct (contains_loop n' x) eqn:C1; destruct (contains_loop (root t) x) eqn:C2; auto.
    + apply Cn in C1. rewrite E' in C1.
      assert (In x (seq_of (root t))).
      { rewrite E. apply in_app_iff in C1. apply in_app_iff. cbn [In]. tauto. }
      apply Ct in H0. congruence.
    + apply Ct in C2. rewrite E in C2.
      assert (In x (seq_of n')).
      { rewrite E'. apply in_app_iff in C2. apply in_app_iff. cbn [In] in C2.
        destruct C2 as [C2|[C2|C2]]; auto. congruence. }
      apply Cn in H0. congruence.
Qed.

Lemma deleteElement_splice_search_tree_witness :
  (Sorted Z.lt (inorder scenario) /\
   spliceable (delete_target (root scenario) 3) = true) /\
  exists t',
    deleteElement scenario 3 = Ret (true, t') /\
    Sorted Z.lt (inorder t') /\
    contains t' 3 = false /\
    forall x, x <> 3 -> contains t' x = contains scenario x.
Proof.
  split; [split; [exact scenario_sorted_lt | reflexivity]|].
  exact (deleteElement_splice_search_tree scenario 3 scenario_sorted_lt eq_refl).
Defined.

(** X4.  Whatever node [deleteElement] removes, a non-decreasing in-order
    sequence stays non-decreasing, every value of the new sequence was in the
    old one, a call that returns true makes the sequence shorter and a call
    that returns false leaves the tree as it was. *)
Theorem deleteElement_keeps_order (t t' : BinaryTree) (val : Z) (found : bool) :
  deleteElement t val = Ret (found, t') ->
  (Sorted Z.le (inorder t) -> Sorted Z.le (inorder t')) /\
  incl (inorder t') (inorder t) /\
  (found = true -> (List.length (inorder t') < List.length (inorder t))%nat) /\
  (found = false -> t' = t).
Proof.
  intro H. apply deleteElement_effect in H. destruct H as [R O].
  apply recursiveDelete_effect in R. destruct R as (S & I & L & E).
  unfold inorder. fold (seq_of (root t)) (seq_of (root t')).
  repeat split; auto.
  - intro H. apply sorted_le_strong, S, sorted_le_strong, H.
  - intro F. specialize (E F). destruct t, t'. cbn [root order] in *. congruence.
Qed.

Lemma deleteElement_keeps_order_witness :
  deleteElement scenario 5 = Ret (true, scenario_after_delete) /\
  (Sorted Z.le (inorder scenario) -> Sorted Z.le (inorder scenario_after_delete)) /\
  incl (inorder scenario_after_delete) (inorder scenario) /\
  (true = true ->
   (List.length (inorder scenario_after_delete) < List.length (inorder scenario))%nat) /\
  (true = false -> scenario_after_delete = scenario).
Proof.
  split; [reflexivity|].
  exact (deleteElement_keeps_order scenario scenario_after_delete 5 true eq_refl).
Defined.

(** X5.  After an [insert] that returns, [contains] is true for the inserted
    value and unchanged for every other value, the stored mode is unchanged,
    and the in-order sequence is the old one with the value put in at one
    place; this holds on every tree. *)
Theorem insert_then_contains (t t' : BinaryTree) (val : Z) (fuel : nat) :
  insert fuel val t = Ret t' ->
  contains t' val = true /\
  (forall x, x <> val -> contains t' x = contains t x) /\
  order t' = order t /\
  exists pre post, inorder t = pre ++ post /\ inorder t' = pre ++ val :: post.
Proof.
  intro H. apply insert_ret_inv in H. destruct H as [C ->].
  rewrite contains_unfold in C. rewrite !contains_unfold. cbn [root order].
  split; [now apply contains_ins_same|].
  split; [intros x Hx; rewrite !contains_unfold; cbn [root]; now apply contains_ins_other|].
  split; [reflexivity|].
  unfold inorder. cbn [root]. now apply seq_of_ins.
Qed.

Lemma insert_then_contains_witness :
  insert 4 6 scenario =
    Ret (mkTree (node 5 (node 3 (node 1 nullptr nullptr) (node 4 nullptr nullptr))
                        (node 8 (node 7 (node 6 nullptr nullptr) nullptr)
                                (node 9 nullptr nullptr))) InOrder) /\
  contains (mkTree (ins 6 scenario_root) InOrder) 6 = true /\
  (forall x, x <> 6 -> contains (mkTree (ins 6 scenario_root) InOrder) x = contains scenario x) /\
  order (mkTree (ins 6 scenario_root) InOrder) = order scenario /\
  exists pre post,
    inorder scenario = pre ++ post /\
    inorder (mkTree (ins 6 scenario_root) InOrder) = pre ++ 6 :: post.
Proof.
  split; [reflexivity|].
  exact (insert_then_contains scenario (mkTree (ins 6 scenario_root) InOrder) 6 4 eq_refl).
Defined.

(** X6.  [insert] returns, given enough iterations of its loop, exactly when
    [contains] is false for the value on the tree it is called on. *)
Theorem insert_returns_iff (t : BinaryTree) (val : Z) :
  (exists fuel t', insert fuel val t = Ret t') <-> contains t val = false.
Proof.
  split.
  - intros (fuel & t' & H). now apply insert_ret_inv in H.
  - intro C. exists (S (depth (root t))). eexists. apply insert_returns; auto.
Qed.

(** X7.  [deleteElement] right after an [insert] of the same value returns
    true and gives back the tree that was there before the [insert], node for
    node. *)
Theorem insert_then_deleteElement (t t' : BinaryTree) (val : Z) (fuel : nat) :
  insert fuel val t = Ret t' -> deleteElement t' val = Ret (true, t).
Proof.
  intro H. apply insert_ret_inv in H. destruct H as [C ->].
  rewrite contains_unfold in C. unfold deleteElement. cbn [root order].
  rewrite (recursiveDelete_ins val (root t) C). cbn [bind fst snd].
  destruct t as [rt o]. cbn [root order ins].
  destruct rt as [|v l r]; cbn [ins]; [reflexivity|].
  destruct (val >? v); [reflexivity|]. destruct (val <? v); reflexivity.
Qed.

Lemma insert_then_deleteElement_witness :
  insert 4 6 scenario = Ret (mkTree (ins 6 scenario_root) InOrder) /\
  deleteElement (mkTree (ins 6 scenario_root) InOrder) 6 = Ret (true, scenario).
Proof.
  split; [reflexivity|].
  exact (insert_then_deleteElement scenario (mkTree (ins 6 scenario_root) InOrder) 6 4 eq_refl).
Defined.

(** X8.  Copy construction from a tree whose in-order sequence is strictly
    increasing returns, given fuel for twice as many steps as there are
    values, a tree equal to the source node for node, with the source's mode. *)
Theorem copy_construct_search_tree (fuel : nat) (other : BinaryTree) :
  Sorted Z.lt (inorder other) -> (2 * List.length (inorder other) < fuel)%nat ->
  copy_construct fuel other = Ret other.
Proof.
  intros S F. apply copy_construct_bst; auto.
  apply sorted_lt_bst, sorted_lt_strong, S.
Qed.

Lemma copy_construct_search_tree_witness :
  (Sorted Z.lt (inorder scenario) /\ (2 * List.length (inorder scenario) < 15)%nat) /\
  copy_construct 15 scenario = Ret scenario.
Proof.
  assert (F : (2 * List.length (inorder scenario) < 15)%nat) by (cbn; lia).
  split; [split; [exact scenario_sorted_lt | exact F]|].
  exact (copy_construct_search_tree 15 scenario scenario_sorted_lt F).
Defined.

(** X9.  Within the range of [int], the tree [balance] returns has height
    exactly the ceiling of [log2 (n+1)], which no tree of [n] elements goes
    below, and [isBalanced] is true on it. *)
Theorem balance_minimal_height (t : BinaryTree) (fuel : nat) :
  Z.of_nat (List.length (inorder t)) <= 2 ^ 30 ->
  (List.length (inorder t) < fuel)%nat ->
  exists t',
    balance fuel t = Ret t' /\
    getHeight t' = Z.log2_up (Z.of_nat (List.length (inorder t)) + 1) /\
    isBalanced t' = true /\
    forall u, List.length (inorder u) = List.length (inorder t) ->
              getHeight t' <= getHeight u.
Proof.
  intros Hn Hfuel.
  destruct (balance_returns t fuel Hn Hfuel) as (r & Hb & Sr & Dr).
  set (n := Z.of_nat (List.length (inorder t))) in *.
  assert (Hlin : Z.log2_up (n + 1) <= n + 1) by (apply Z.log2_up_le_lin; lia).
  assert (Hh : recursiveGetHeight r = Z.log2_up (n + 1)).
  { rewrite recursiveGetHeight_depth by lia. exact Dr. }
  exists (mkTree r (order t)). unfold getHeight. cbn [root].
  split; [exact Hb|]. split; [exact Hh|]. split.
  - destruct (Z.eq_dec n 0) as [Z0|Z0].
    + destruct r as [|x l r]; [reflexivity|].
      exfalso. rewrite seq_of_node in Sr. apply (f_equal (@List.length Z)) in Sr.
      rewrite length_app in Sr. cbn [List.length] in Sr. unfold n in Z0. lia.
    + destruct (balance_root t fuel) as (x & l & r' & Hb' & _ & _ & _ & Dl & Dr');
        [fold n; lia | exact Hfuel |].
      rewrite Hb in Hb'. injection Hb' as ->. fold n in Dl, Dr'.
      unfold isBalanced. cbn [root]. cbv zeta.
      assert (Hm : 0 <= (n - 1) / 2 /\ (n - 1) / 2 <= n - 1 - (n - 1) / 2 <= (n - 1) / 2 + 1).
      { Z.to_euclidean_division_equations. lia. }
      set (a := (n - 1) / 2) in *.
      assert (H1 : Z.log2_up (a + 1) <= Z.log2_up (n - 1 - a + 1)).
      { apply Z.log2_up_le_mono. lia. }
      assert (H2 : Z.log2_up (n - 1 - a + 1) <= Z.log2_up (a + 1) + 1).
      { transitivity (Z.log2_up (Z.succ (a + 1))).
        - apply Z.log2_up_le_mono. lia.
        - pose proof (Z.log2_up_succ_le (a + 1)). lia. }
      assert (H3 : Z.log2_up (n - 1 - a + 1) <= n).
      { pose proof (Z.log2_up_le_lin (n - 1 - a + 1)). lia. }
      assert (H4 : 0 <= Z.log2_up (a + 1)) by apply Z.log2_up_nonneg.
      rewrite !recursiveGetHeight_depth by lia. rewrite Dl, Dr'.
      replace (Z.log2_up (a + 1) >? Z.log2_up (n - 1 - a + 1)) with false
        by (symmetry; rewrite Z.gtb_ltb; apply Z.ltb_ge; lia).
      rewrite size_t_wrap_small by lia. apply Z.leb_le. lia.
  - intros u Hu. rewrite Hh. unfold inorder in Hu. fold (seq_of (root u)) in Hu.
    fold (inorder t) in Hu.
    pose proof (height_bounds (root u)) as Hb2. rewrite Hu in Hb2. fold n in Hb2. lia.
Qed.

Lemma balance_minimal_height_witness :
  (Z.of_nat (List.length (inorder (mkTree (ascending 7 1) InOrder))) <= 2 ^ 30 /\
   (List.length (inorder (mkTree (ascending 7 1) InOrder)) < 8)%nat) /\
  exists t',
    balance 8 (mkTree (ascending 7 1) InOrder) = Ret t' /\
    getHeight t' =
      Z.log2_up (Z.of_nat (List.length (inorder (mkTree (ascending 7 1) InOrder))) + 1) /\
    isBalanced t' = true /\
    forall u, List.length (inorder u) =
              List.length (inorder (mkTree (ascending 7 1) InOrder)) ->
              getHeight t' <= getHeight u.
Proof.
  assert (H1 : Z.of_nat (List.length (inorder (mkTree (ascending 7 1) InOrder))) <= 2 ^ 30)
    by (vm_compute; discriminate).
  assert (H2 : (List.length (inorder (mkTree (ascending 7 1) InOrder)) < 8)%nat)
    by (vm_compute; lia).
  split; [split; [exact H1 | exact H2]|].
  exact (balance_minimal_height (mkTree (ascending 7 1) InOrder) 8 H1 H2).
Defined.

(** X10.  [balance] is idempotent within the range of [int]: on the tree a
    first call returned, a second call returns that same tree. *)
Theorem balance_idempotent (t t' : BinaryTree) (fuel : nat) :
  Z.of_nat (List.length (inorder t)) <= 2 ^ 30 ->
  balance fuel t = Ret t' ->
  balance fuel t' = Ret t'.
Proof.
  intros Hn H. destruct (balance_ret_inv t t' fuel Hn H) as (E & O & _).
  revert H. unfold balance. cbv zeta. fold (inorder t) (inorder t'). rewrite E, O.
  destruct (makeNode fuel 0 (balance_high (inorder t)) (inorder t)) as [r| | |];
    cbn [bind]; try discriminate.
  intros [= <-]. reflexivity.
Qed.

Lemma balance_idempotent_witness :
  (Z.of_nat (List.length (inorder (mkTree (ascending 3 0) PostOrder))) <= 2 ^ 30 /\
   balance 4 (mkTree (ascending 3 0) PostOrder) =
     Ret (mkTree (node 1 (node 0 nullptr nullptr) (node 2 nullptr nullptr)) PostOrder)) /\
  balance 4 (mkTree (node 1 (node 0 nullptr nullptr) (node 2 nullptr nullptr)) PostOrder) =
    Ret (mkTree (node 1 (node 0 nullptr nullptr) (node 2 nullptr nullptr)) PostOrder).
Proof.
  assert (H1 : Z.of_nat (List.length (inorder (mkTree (ascending 3 0) PostOrder))) <= 2 ^ 30)
    by (vm_compute; discriminate).
  split; [split; [exact H1 | reflexivity]|].
  exact (balance_idempotent (mkTree (ascending 3 0) PostOrder) _ 4 H1 eq_refl).
Defined.

(** X11.  On a tree with a non-decreasing in-order sequence, [balance]
    within the range of [int] changes the answer of [contains] for no value,
    and leaves [getMin] and [getMax] as they were. *)
Theorem balance_keeps_membership (t t' : BinaryTree) (fuel : nat) :
  Sorted Z.le (inorder t) ->
  Z.of_nat (List.length (inorder t)) <= 2 ^ 30 ->
  balance fuel t = Ret t' ->
  (forall x, contains t' x = contains t x) /\
  getMin t' = getMin t /\ getMax t' = getMax t.
Proof.
  intros S Hn H. destruct (balance_ret_inv t t' fuel Hn H) as (E & _ & _).
  apply sorted_le_strong in S. unfold inorder in *.
  fold (seq_of (root t)) (seq_of (root t')) in *.
  split; [|split].
  - intro x. rewrite !contains_unfold.
    pose proof (contains_loop_sorted x (root t) S) as Ct.
    rewrite <- E in S. pose proof (contains_loop_sorted x (root t') S) as Ct'.
    rewrite E in Ct'.
    destruct (contains_loop (root t') x), (contains_loop (root t) x); auto.
    + symmetry. apply Ct, Ct'. reflexivity.
    + apply Ct', Ct. reflexivity.
  - unfold getMin. destruct (root t') as [|v' l' r'], (root t) as [|v l r]; auto.
    + rewrite seq_of_node in E. destruct (seq_of l); discriminate.
    + rewrite seq_of_node in E. destruct (seq_of l'); discriminate.
    + destruct (leftmost_head v' l' r') as (a & ra & -> & Ha).
      destruct (leftmost_head v l r) as (b & rb & -> & Hb). congruence.
  - unfold getMax. destruct (root t') as [|v' l' r'], (root t) as [|v l r]; auto.
    + rewrite seq_of_node in E. destruct (seq_of l); discriminate.
    + rewrite seq_of_node in E. destruct (seq_of l'); discriminate.
    + destruct (rightmost_last v' l' r') as (a & fa & -> & Ha).
      destruct (rightmost_last v l r) as (b & fb & -> & Hb).
      rewrite Ha, Hb in E. apply app_inj_tail in E. destruct E as [_ ->]. reflexivity.
Qed.

Lemma balance_keeps_membership_witness :
  (Sorted Z.le (inorder scenario_after_delete) /\
   Z.of_nat (List.length (inorder scenario_after_delete)) <= 2 ^ 30 /\
   balance 6 scenario_after_delete =
     Ret (mkTree (node 4 (node 1 nullptr (node 3 nullptr nullptr))
                         (node 7 nullptr (node 7 nullptr nullptr))) InOrder)) /\
  (forall x,
     contains (mkTree (node 4 (node 1 nullptr (node 3 nullptr nullptr))
                              (node 7 nullptr (node 7 nullptr nullptr))) InOrder) x =
     contains scenario_after_delete x) /\
  getMin (mkTree (node 4 (node 1 nullptr (node 3 nullptr nullptr))
                         (node 7 nullptr (node 7 nullptr nullptr))) InOrder) =
    getMin scenario_after_delete /\
  getMax (mkTree (node 4 (node 1 nullptr (node 3 nullptr nullptr))
                         (node 7 nullptr (node 7 nullptr nullptr))) InOrder) =
    getMax scenario_after_delete.
Proof.
  assert (S : Sorted Z.le (inorder scenario_after_delete)).
  { change (inorder scenario_after_delete) with [1; 3; 4; 7; 7]. repeat constructor; lia. }
  assert (H1 : Z.of_nat (List.length (inorder scenario_after_delete)) <= 2 ^ 30)
    by (vm_compute; discriminate).
  split; [split; [exact S | split; [exact H1 | reflexivity]]|].
  exact (balance_keeps_membership scenario_after_delete _ 6 S H1 eq_refl).
Defined.

(** X12.  For every tree of [n] elements, [n] below the range of [size_t],
    [getHeight] lies between the ceiling of [log2 (n+1)] and [n]; it is 0
    exactly on the empty tree. *)
Theorem getHeight_bounds (t : BinaryTree) :
  Z.of_nat (List.length (inorder t)) < 2 ^ 64 ->
  Z.log2_up (Z.of_nat (List.length (inorder t)) + 1) <= getHeight t
    <= Z.of_nat (List.length (inorder t)) /\
  (getHeight t = 0 <-> root t = nullptr).
Proof.
  intro H. unfold inorder, getHeight in *. fold (seq_of (root t)) in *.
  split; [now apply height_bounds|].
  pose proof (depth_le_size (root t)) as Hd.
  rewrite recursiveGetHeight_depth by lia.
  destruct (root t) as [|v l r]; cbn [depth]; split; auto; try discriminate; lia.
Qed.

Lemma getHeight_bounds_witness :
  Z.of_nat (List.length (inorder scenario)) < 2 ^ 64 /\
  Z.log2_up (Z.of_nat (List.length (inorder scenario)) + 1) <= getHeight scenario
    <= Z.of_nat (List.length (inorder scenario)) /\
  (getHeight scenario = 0 <-> root scenario = nullptr).
Proof.
  assert (H : Z.of_nat (List.length (inorder scenario)) < 2 ^ 64) by reflexivity.
  split; [exact H | exact (getHeight_bounds scenario H)].
Defined.

(** X13.  On a tree that is not empty and whose in-order sequence is
    non-decreasing, [getMin] returns a stored value that no stored value is
    below and [getMax] a stored value that no stored value is above. *)
Theorem getMin_getMax_extremes (t : BinaryTree) :
  Sorted Z.le (inorder t) -> root t <> nullptr ->
  exists lo hi,
    getMin t = Ret lo /\ getMax t = Ret hi /\
    In lo (inorder t) /\ In hi (inorder t) /\
    forall x, In x (inorder t) -> lo <= x <= hi.
Proof.
  intros S N. apply sorted_le_strong in S.
  unfold getMin, getMax, inorder in *. fold (seq_of (root t)) in *.
  destruct (root t) as [|v l r]; [contradiction|].
  destruct (leftmost_head v l r) as (lo & rest & Hl & Hs).
  destruct (rightmost_last v l r) as (hi & front & Hr & Hf).
  exists lo, hi. split; [exact Hl|]. split; [exact Hr|]. split; [|split].
  - rewrite Hs. now left.
  - rewrite Hf. apply in_app_iff. right. now left.
  - intros x Hx. eapply sorted_le_bounds; eauto.
Qed.

Lemma getMin_getMax_extremes_witness :
  (Sorted Z.le (inorder scenario) /\ root scenario <> nullptr) /\
  exists lo hi,
    getMin scenario = Ret lo /\ getMax scenario = Ret hi /\
    In lo (inorder scenario) /\ In hi (inorder scenario) /\
    forall x, In x (inorder scenario) -> lo <= x <= hi.
Proof.
  assert (N : root scenario <> nullptr) by discriminate.
  split; [split; [exact scenario_sorted_le | exact N]|].
  exact (getMin_getMax_extremes scenario scenario_sorted_le N).
Defined.

(** X14.  [print] throws [invalid_argument] exactly on a tree that is not
    empty and whose stored mode is none of the three enumerators, and returns
    otherwise: the empty string on the empty tree, else a rearrangement of the
    in-order sequence with one space before each token, in post-order under
    the mode PostOrder; [operator<<] writes what [print] returns between "["
    and " ]". *)
Theorem print_tokens (t : BinaryTree) :
  ((exists e, print t = Throw e) <-> root t <> nullptr /\ order t = UnnamedOrder) /\
  (root t <> nullptr -> order t = UnnamedOrder ->
   print t = Throw (invalid_argument "Order value invalid 3") /\
   stream_insert t = Throw (invalid_argument "Order value invalid 3")) /\
  (root t = nullptr -> print t = Ret EmptyString) /\
  (order t <> UnnamedOrder ->
   exists toks,
     print t = Ret (render toks) /\
     Permutation toks (inorder t) /\
     stream_insert t = Ret (String.append "[" (String.append (render toks) " ]")) /\
     (order t = PostOrder -> toks = postorder_seq (root t))).
Proof.
  assert (Named : order t <> UnnamedOrder ->
            exists toks,
              print t = Ret (render toks) /\
              Permutation toks (inorder t) /\
              stream_insert t = Ret (String.append "[" (String.append (render toks) " ]")) /\
              (order t = PostOrder -> toks = postorder_seq (root t))).
  { intro N. unfold stream_insert. rewrite (print_renders t N). cbn [bind].
    unfold inorder. fold (seq_of (root t)).
    destruct (order t); [| | |congruence]; eexists; (split; [reflexivity|]).
    - split; [apply preorder_seq_perm|]. split; [reflexivity | discriminate].
    - split; [rewrite inorder_seq_seq_of; reflexivity|]. split; [reflexivity | discriminate].
    - split; [apply postorder_seq_perm|]. split; reflexivity. }
  split; [|split; [|split]].
  - split.
    + intros [e H]. split.
      * intro R. unfold print in H. rewrite R in H. discriminate.
      * destruct (order t) eqn:O; auto;
          (destruct Named as (toks & P & _); [congruence | rewrite P in H; discriminate]).
    + intros [N O]. eexists. now apply print_throws.
  - intros N O. unfold stream_insert. rewrite (print_throws t N O). auto.
  - intro R. unfold print. now rewrite R.
  - exact Named.
Qed.

(** X15.  Inserting [count] consecutive values in ascending order into the
    empty tree returns, given fuel for [count] iterations, the tree in which
    every node is the right child of its predecessor: its height is [count]
    and its in-order sequence is the values in the order given. *)
Theorem insert_ascending_degenerate (count : nat) (from : Z) (fuel : nat) :
  (count <= fuel)%nat -> Z.of_nat count < 2 ^ 64 ->
  insert_all fuel (ascending_values count from) empty_tree =
    Ret (mkTree (ascending count from) InOrder) /\
  getHeight (mkTree (ascending count from) InOrder) = Z.of_nat count /\
  inorder (mkTree (ascending count from) InOrder) = ascending_values count from.
Proof.
  intros F B. split; [|split].
  - pose proof (insert_all_ascending count 0 from InOrder fuel F) as H.
    cbn [Z.of_nat Nat.add ascending] in H. rewrite Z.add_0_r in H. exact H.
  - unfold getHeight. cbn [root].
    rewrite recursiveGetHeight_depth; rewrite depth_ascending; auto.
  - unfold inorder. cbn [root]. apply seq_of_ascending.
Qed.

Lemma insert_ascending_degenerate_witness :
  ((3 <= 3)%nat /\ Z.of_nat 3 < 2 ^ 64) /\
  insert_all 3 (ascending_values 3 10) empty_tree =
    Ret (mkTree (ascending 3 10) InOrder) /\
  getHeight (mkTree (ascending 3 10) InOrder) = Z.of_nat 3 /\
  inorder (mkTree (ascending 3 10) InOrder) = ascending_values 3 10.
Proof.
  assert (F : (3 <= 3)%nat) by lia.
  assert (B : Z.of_nat 3 < 2 ^ 64) by reflexivity.
  split; [split; [exact F | exact B]|].
  exact (insert_ascending_degenerate 3 10 3 F B).
Defined.

(** X16.  On the tree [balance] returns for a non-empty tree within the range
    of [int], [getRootValue] is the element at the lower middle index
    [(n-1)/2] of the in-order sequence, and [getRootLeft] and [getRootRight]
    point at subtrees holding the elements before it and after it. *)
Theorem balance_root_is_median (t : BinaryTree) (fuel : nat) :
  1 <= Z.of_nat (List.length (inorder t)) <= 2 ^ 30 ->
  (List.length (inorder t) < fuel)%nat ->
  exists t' x l r,
    balance fuel t = Ret t' /\
    getRootValue t' = Ret x /\ getRootLeft t' = Ret l /\ getRootRight t' = Ret r /\
    nth_error (inorder t) (Z.to_nat ((Z.of_nat (List.length (inorder t)) - 1) / 2)) = Some x /\
    inorder t = seq_of l ++ x :: seq_of r /\
    Z.of_nat (List.length (seq_of l)) = (Z.of_nat (List.length (inorder t)) - 1) / 2.
Proof.
  intros Hn Hfuel.
  destruct (balance_root t fuel Hn Hfuel) as (x & l & r & Hb & Hx & Hs & Hl & _ & _).
  exists (mkTree (node x l r) (order t)), x, l, r. repeat split; auto.
Qed.

Lemma balance_root_is_median_witness :
  (1 <= Z.of_nat (List.length (inorder scenario)) <= 2 ^ 30 /\
   (List.length (inorder scenario) < 8)%nat) /\
  exists t' x l r,
    balance 8 scenario = Ret t' /\
    getRootValue t' = Ret x /\ getRootLeft t' = Ret l /\ getRootRight t' = Ret r /\
    nth_error (inorder scenario)
      (Z.to_nat ((Z.of_nat (List.length (inorder scenario)) - 1) / 2)) = Some x /\
    inorder scenario = seq_of l ++ x :: seq_of r /\
    Z.of_nat (List.length (seq_of l)) = (Z.of_nat (List.length (inorder scenario)) - 1) / 2.
Proof.
  assert (H1 : 1 <= Z.of_nat (List.length (inorder scenario)) <= 2 ^ 30)
    by (vm_compute; split; discriminate).
  assert (H2 : (List.length (inorder scenario) < 8)%nat) by (vm_compute; lia).
  split; [split; [exact H1 | exact H2]|].
  exact (balance_root_is_median scenario 8 H1 H2).
Defined.

(** X17.  Every tree that the constructors, [insert], [deleteElement],
    [setOrder], [balance] (within the range of [int]) and copy construction
    produce has a non-decreasing in-order sequence. *)
Theorem reachable_sorted (t : BinaryTree) :
  reachable t -> Sorted Z.le (inorder t).
Proof.
  intro R. apply sorted_le_strong. now apply reachable_strongly_sorted.
Qed.

Lemma reachable_sorted_witness :
  reachable scenario_after_delete /\ Sorted Z.le (inorder scenario_after_delete).
Proof.
  assert (R : reachable scenario_after_delete).
  { apply (reach_delete scenario scenario_after_delete 5 true).
    - exact scenario_reachable.
    - reflexivity. }
  split; [exact R | exact (reachable_sorted scenario_after_delete R)].
Defined.

(** X18.  On every tree with a non-decreasing in-order sequence, duplicates
    included, [contains] is true exactly for the values of that sequence. *)
Theorem contains_decides_membership (t : BinaryTree) (x : Z) :
  Sorted Z.le (inorder t) -> (contains t x = true <-> In x (inorder t)).
Proof.
  intro S. rewrite contains_unfold. apply contains_loop_sorted, sorted_le_strong, S.
Qed.

Lemma contains_decides_membership_witness :
  Sorted Z.le (inorder scenario) /\
  (contains scenario 7 = true <-> In 7 (inorder scenario)).
Proof.
  split; [exact scenario_sorted_le|].
  exact (contains_decides_membership scenario 7 scenario_sorted_le).
Defined.

(** The rebuild of a range puts the lower middle on top at every node. *)
Lemma makeNode_lower_middle (fuel : nat) :
  forall v low high,
    0 <= low -> low <= high + 1 -> high < Z.of_nat (List.length v) ->
    Z.of_nat (List.length v) <= 2 ^ 30 ->
    high - low + 1 < Z.of_nat fuel ->
    exists t, makeNode fuel low high v = Ret t /\ lower_middle t.
Proof.
  induction fuel as [|fuel IH]; intros v low high Hlow Hle Hhigh Hlen Hfuel; [lia|].
  cbn [makeNode]. destruct (low >? high) eqn:G.
  - exists nullptr. split; [reflexivity | exact I].
  - rewrite (int_wrap_small (low + high)) by lia.
    rewrite Z.quot_div_nonneg by lia.
    assert (Hm : low <= (low + high) / 2 <= high /\
                 (low + high) / 2 - low <= high - (low + high) / 2
                   <= (low + high) / 2 - low + 1).
    { Z.to_euclidean_division_equations. lia. }
    set (mid := (low + high) / 2) in *.
    destruct (vector_at_in_range v mid) as [x Hx]; try lia.
    rewrite !int_wrap_small by lia.
    destruct (IH v low (mid - 1)) as (tl & Hl & Ml); try lia.
    destruct (IH v (mid + 1) high) as (tr & Htr & Mr); try lia.
    destruct (makeNode_exact fuel v low (mid - 1)) as (tl' & Hl' & _ & Ll & _); try lia.
    destruct (makeNode_exact fuel v (mid + 1) high) as (tr' & Htr' & _ & Lr & _); try lia.
    rewrite Hl in Hl'. injection Hl' as <-. rewrite Htr in Htr'. injection Htr' as <-.
    exists (node x tl tr). rewrite Hx, Hl, Htr. cbn [bind lower_middle].
    split; [reflexivity|]. split; [lia | auto].
Qed.

(** X19.  For every tree holding [n <= 2^30] elements, [balance] returns; on
    the tree it returns the in-order sequence and the stored mode are those of
    the tree it was called on, the height is at most the ceiling of
    [log2 (n+1)], and every node holds the lower middle of the values below
    it: its left subtree has as many nodes as its right subtree or one less. *)
Theorem balance_within_int_range (t : BinaryTree) (fuel : nat) :
  Z.of_nat (List.length (inorder t)) <= 2 ^ 30 ->
  (List.length (inorder t) < fuel)%nat ->
  exists t',
    balance fuel t = Ret t' /\
    inorder t' = inorder t /\
    order t' = order t /\
    getHeight t' <= Z.log2_up (Z.of_nat (List.length (inorder t)) + 1) /\
    lower_middle (root t').
Proof.
  intros Hn Hfuel.
  destruct (balance_returns t fuel Hn Hfuel) as (r & Hb & Sr & Dr).
  exists (mkTree r (order t)). unfold getHeight. cbn [root order].
  split; [exact Hb|]. split; [exact Sr|]. split; [reflexivity|]. split.
  - pose proof (Z.log2_up_le_lin (Z.of_nat (List.length (inorder t)) + 1)).
    rewrite recursiveGetHeight_depth by lia. lia.
  - destruct (makeNode_lower_middle fuel (inorder t) 0
                (Z.of_nat (List.length (inorder t)) - 1)) as (r' & Hr' & M); try lia.
    revert Hb. unfold balance. cbv zeta. fold (inorder t).
    rewrite balance_high_small by lia. rewrite Hr'. cbn [bind].
    now intros [= <-].
Qed.

Lemma balance_within_int_range_witness :
  (Z.of_nat (List.length (inorder scenario_after_delete)) <= 2 ^ 30 /\
   (List.length (inorder scenario_after_delete) < 6)%nat) /\
  exists t',
    balance 6 scenario_after_delete = Ret t' /\
    inorder t' = inorder scenario_after_delete /\
    order t' = order scenario_after_delete /\
    getHeight t' <= Z.log2_up (Z.of_nat (List.length (inorder scenario_after_delete)) + 1) /\
    lower_middle (root t').
Proof.
  assert (H1 : Z.of_nat (List.length (inorder scenario_after_delete)) <= 2 ^ 30)
    by (vm_compute; discriminate).
  assert (H2 : (List.length (inorder scenario_after_delete) < 6)%nat) by (vm_compute; lia).
  split; [split; [exact H1 | exact H2]|].
  exact (balance_within_int_range scenario_after_delete 6 H1 H2).
Defined.
